(** * Sentence-aware chunking of the Thai NLP sidecar

    A shallow embedding of the [/chunk] endpoint of
    [thai-nlp-sidecar/main.py] and the properties of its greedy sentence
    packing with trailing-overlap carry-over.

    - Python [str] values are sequences of Unicode code points.
    - Python [int] values are unbounded, hence [Z].
    - [try ... except Exception] is an explicit result type; the lazily
      initialised module globals are threaded as explicit state.
    - PyThaiNLP and the clock are an interface ([Runtime]): nothing is
      assumed about what the segmenter or the tokenizer return. *)

From Stdlib Require Import ZArith NArith String Ascii Lia.
From stdpp Require Import base tactics option list.
From stdpp Require Import gmap.

Local Open Scope Z_scope.

(** ** Python strings *)

Definition pystr : Type := list N.

(** A string literal of the source, as code points. *)
Definition py (s : string) : pystr :=
  map N_of_ascii (list_ascii_of_string s).

(** [str.isspace] on one code point: the characters CPython's
    [_PyUnicode_IsWhitespace] accepts. *)
Definition py_isspace (c : N) : bool :=
  ((9 <=? c) && (c <=? 13) || (28 <=? c) && (c <=? 32)
   || (c =? 133) || (c =? 160) || (c =? 5760)
   || (8192 <=? c) && (c <=? 8202)
   || (c =? 8232) || (c =? 8233) || (c =? 8239) || (c =? 8287)
   || (c =? 12288))%N.

Fixpoint lstrip (s : pystr) : pystr :=
  match s with
  | c :: s' => if py_isspace c then lstrip s' else s
  | [] => []
  end.

Definition rstrip (s : pystr) : pystr := reverse (lstrip (reverse s)).

(** [s.strip()] *)
Definition strip (s : pystr) : pystr := rstrip (lstrip s).

(** [sep.join(parts)] *)
Fixpoint join (sep : pystr) (parts : list pystr) : pystr :=
  match parts with
  | [] => []
  | [p] => p
  | p :: rest => p ++ sep ++ join sep rest
  end.

(** [len(xs)] as a Python integer. *)
Definition len {A} (xs : list A) : Z := Z.of_nat (length xs).

(** Truthiness of a list or string: [if xs] / [if not xs]. *)
Definition truthy {A} (xs : list A) : bool :=
  match xs with [] => false | _ :: _ => true end.

(** ** Exceptions *)

Inductive Exception : Type := PyExc (name : string).

Inductive res (A : Type) : Type :=
| Ok (a : A)
| Raise (e : Exception).
Arguments Ok {A} a.
Arguments Raise {A} e.

Definition res_bind {A B} (r : res A) (k : A -> res B) : res B :=
  match r with
  | Ok a => k a
  | Raise e => Raise e
  end.

Declare Scope res_scope.
Delimit Scope res_scope with res.
Notation "x <- r ;; k" := (res_bind r (fun x => k))
  (at level 100, r at next level, right associativity) : res_scope.

(** [for x in xs: st = body(st, x)], stopping at the first exception. *)
Fixpoint for_each {A St} (body : St -> A -> res St) (xs : list A) (st : St)
  : res St :=
  match xs with
  | [] => Ok st
  | x :: rest =>
      match body st x with
      | Ok st' => for_each body rest st'
      | Raise e => Raise e
      end
  end.

(** ** The external collaborators *)

(** [pythainlp.tokenize.sent_tokenize(text)] *)
Definition SentTokenize : Type := pystr -> res (list pystr).

(** [pythainlp.tokenize.word_tokenize(text, engine=..., keep_whitespace=...)] *)
Definition WordTokenize : Type := pystr -> pystr -> bool -> res (list pystr).

(** What the module takes from its environment: the two deferred imports
    (an import may itself raise) and the arithmetic of the timing
    instrumentation, [round((t1 - t0) * 1000, 2)] on floats, which is
    left abstract. *)
Class Runtime : Type := {
  float : Type;
  round_elapsed : float -> float -> float;
  import_sent_tokenize : res SentTokenize;
  import_word_tokenize : res WordTokenize
}.

(** ** Module state: the lazily loaded functions used by [chunk]

    ([_normalize_func], [_correct_func] and [_stopwords] are not touched
    by [chunk].) *)

Record Globals : Type := {
  _tokenize : option WordTokenize;
  _sent_tokenize : option SentTokenize
}.

(** State and exceptions: a raised exception keeps the globals assigned
    before it. *)
Definition M (A : Type) : Type := Globals -> res A * Globals.

Definition ret {A} (a : A) : M A := fun g => (Ok a, g).

Definition bind {A B} (m : M A) (k : A -> M B) : M B :=
  fun g =>
    match m g with
    | (Ok a, g') => k a g'
    | (Raise e, g') => (Raise e, g')
    end.

Definition lift {A} (r : res A) : M A := fun g => (r, g).

Declare Scope py_scope.
Delimit Scope py_scope with py.
Notation "x <- m ;; k" := (bind m (fun x => k))
  (at level 100, m at next level, right associativity) : py_scope.

(** ** Request and response models *)

Record ChunkRequest : Type := {
  text : pystr;
  max_tokens : Z;
  overlap : Z
}.

(** The [Field] constraints of [ChunkRequest], checked by the transport
    layer before [chunk] runs. *)
Definition valid_request (req : ChunkRequest) : Prop :=
  1 <= len (text req) <= 500000
  /\ 50 <= max_tokens req <= 2000
  /\ 0 <= overlap req <= 200.

Record ChunkResponse `{Runtime} : Type := {
  chunks : list pystr;
  count : Z;
  elapsed_ms : float
}.

(** State of the packing loop: the three locals it assigns. *)
Record Loop : Type := {
  loop_chunks : list pystr;
  current_sentences : list pystr;
  current_token_count : Z
}.

Definition newmm : pystr := py "newmm".
Definition space : pystr := py " ".

Section Endpoint.
Context `{RT : Runtime}.

Definition get_tokenize : M WordTokenize := fun g =>
  match _tokenize g with
  | Some f => (Ok f, g)
  | None =>
      match import_word_tokenize with
      | Ok f => (Ok f, {| _tokenize := Some f; _sent_tokenize := _sent_tokenize g |})
      | Raise e => (Raise e, g)
      end
  end.

Definition get_sent_tokenize : M SentTokenize := fun g =>
  match _sent_tokenize g with
  | Some f => (Ok f, g)
  | None =>
      match import_sent_tokenize with
      | Ok f => (Ok f, {| _tokenize := _tokenize g; _sent_tokenize := Some f |})
      | Raise e => (Raise e, g)
      end
  end.

(** The backward scan
    [for s in reversed(current_sentences): ... break ... insert(0, s)];
    [rev_sents] is what is left of [reversed(current_sentences)]. *)
Fixpoint overlap_scan (word_tok : WordTokenize) (overlap_budget : Z)
    (rev_sents : list pystr) (overlap_sents : list pystr) (overlap_count : Z)
  : res (list pystr * Z) :=
  match rev_sents with
  | [] => Ok (overlap_sents, overlap_count)
  | s :: rest =>
      (toks <- word_tok s newmm false ;;
       let s_tc := len toks in
       if overlap_budget <? overlap_count + s_tc
       then Ok (overlap_sents, overlap_count)
       else overlap_scan word_tok overlap_budget rest
              (s :: overlap_sents) (overlap_count + s_tc))%res
  end.

(** One iteration of [for sent in sentences]. *)
Definition loop_body (word_tok : WordTokenize) (req : ChunkRequest)
    (st : Loop) (sent : pystr) : res Loop :=
  let sent := strip sent in
  if negb (truthy sent) then Ok st
  else
    (sent_tokens <- word_tok sent newmm false ;;
     let sent_token_count := len sent_tokens in
     st1 <-
       (if (max_tokens req <? current_token_count st + sent_token_count)
           && truthy (current_sentences st)
        then
          let chunks1 := loop_chunks st ++ [join space (current_sentences st)] in
          if 0 <? overlap req
          then
            kept <- overlap_scan word_tok (overlap req)
                      (reverse (current_sentences st)) [] 0 ;;
            Ok {| loop_chunks := chunks1;
                  current_sentences := fst kept;
                  current_token_count := snd kept |}
          else
            Ok {| loop_chunks := chunks1;
                  current_sentences := [];
                  current_token_count := 0 |}
        else Ok st) ;;
     Ok {| loop_chunks := loop_chunks st1;
           current_sentences := current_sentences st1 ++ [sent];
           current_token_count := current_token_count st1 + sent_token_count |})%res.

Definition loop_init : Loop :=
  {| loop_chunks := []; current_sentences := []; current_token_count := 0 |}.

(** "Flush remaining". *)
Definition flush_remaining (st : Loop) : list pystr :=
  if truthy (current_sentences st)
  then loop_chunks st ++ [join space (current_sentences st)]
  else loop_chunks st.

(** The result of both degraded paths: the whole text as one chunk. *)
Definition whole_text (t0 t1 : float) (req : ChunkRequest) : ChunkResponse :=
  {| chunks := [text req]; count := 1; elapsed_ms := round_elapsed t0 t1 |}.

(** The body of the [try] block; [t0] and [t1] are the two readings of
    [time.time()]. *)
Definition chunk_try (t0 t1 : float) (req : ChunkRequest) : M ChunkResponse :=
  (sent_tok <- get_sent_tokenize ;;
   word_tok <- get_tokenize ;;
   sentences <- lift (sent_tok (text req)) ;;
   if negb (truthy sentences) then ret (whole_text t0 t1 req)
   else
     st <- lift (for_each (loop_body word_tok req) sentences loop_init) ;;
     let chunks := flush_remaining st in
     ret {| chunks := chunks; count := len chunks;
            elapsed_ms := round_elapsed t0 t1 |})%py.

(** [async def chunk(req)]: the [try] block with its
    [except Exception] handler. *)
Definition chunk (t0 t1 : float) (req : ChunkRequest) (g : Globals)
  : ChunkResponse * Globals :=
  match chunk_try t0 t1 req g with
  | (Ok response, g') => (response, g')
  | (Raise _, g') => (whole_text t0 t1 req, g')
  end.

End Endpoint.

(** ** The adapter operations, as the packing sees them *)

Section Adapter.
Context `{RT : Runtime}.

(** [segment_sentences(text)]: the deferred import followed by the call. *)
Definition segment_sentences (txt : pystr) : res (list pystr) :=
  (f <- import_sent_tokenize ;; f txt)%res.

(** [count_tokens(text)]:
    [len(word_tok(text, engine="newmm", keep_whitespace=False))]. *)
Definition count_tokens (s : pystr) : res Z :=
  (f <- import_word_tokenize ;;
   toks <- f s newmm false ;;
   Ok (len toks))%res.

Definition counts (s : pystr) : Prop := exists n, count_tokens s = Ok n.

(** The token count of a sentence (0 where counting raises; the
    statements below only use it on sentences that count). *)
Definition tc (s : pystr) : Z :=
  match count_tokens s with
  | Ok n => n
  | Raise _ => 0
  end.

(** A lazily loaded global is either unset or holds what its import
    statement binds. *)
Definition cache_ok {A} (cache : option A) (import : res A) : Prop :=
  match cache with
  | None => True
  | Some f => import = Ok f
  end.

Definition globals_ok (g : Globals) : Prop :=
  cache_ok (_tokenize g) import_word_tokenize
  /\ cache_ok (_sent_tokenize g) import_sent_tokenize.

End Adapter.

Definition no_globals : Globals :=
  {| _tokenize := None; _sent_tokenize := None |}.

(** The sentences the loop does not skip: trimmed and non-blank. *)
Definition usable (sentences : list pystr) : list pystr :=
  filter (fun s => s <> []) (strip <$> sentences).

(** A sentence of the document is an occurrence: its position among the
    usable sentences together with its text, so that two sentences with
    the same text stay distinct. *)
Abbreviation Sentence := (nat * pystr)%type.

Definition occurrences (sents : list pystr) : list Sentence :=
  zip (seq 0 (length sents)) sents.

(** ** Packing, sentence by sentence

    The same greedy pass as [loop_body], on sentences whose counts are
    known, keeping for every chunk which sentences were carried over from
    the previous chunk and which are new. *)

Record Group (T : Type) : Type := {
  carried : list T;
  fresh : list T
}.
Arguments carried {T} g.
Arguments fresh {T} g.
Arguments Build_Group {T} carried fresh.

Definition members {T} (g : Group T) : list T := carried g ++ fresh g.

Section Packing.
Context {T : Type} (cnt : T -> Z) (max_tok over : Z).

Definition total (l : list T) : Z := foldr (fun s n => cnt s + n) 0 l.

Fixpoint keep_overlap (rev_sents kept : list T) (n : Z) : list T * Z :=
  match rev_sents with
  | [] => (kept, n)
  | s :: rest =>
      if over <? n + cnt s then (kept, n)
      else keep_overlap rest (s :: kept) (n + cnt s)
  end.

Definition carry_over (flushed : list T) : list T * Z :=
  if 0 <? over then keep_overlap (reverse flushed) [] 0 else ([], 0).

(** The buffer after [current_sentences.append(sent)]. *)
Definition extend (cur : Group T) (s : T) : Group T :=
  {| carried := carried cur; fresh := fresh cur ++ [s] |}.

(** The buffer after a flush: what is carried over, then [s]. *)
Definition restart (cur : Group T) (s : T) : Group T :=
  {| carried := fst (carry_over (members cur)); fresh := [s] |}.

Fixpoint pack (cur : Group T) (running : Z) (sents : list T) : list (Group T) :=
  match sents with
  | [] => if truthy (members cur) then [cur] else []
  | s :: rest =>
      if (max_tok <? running + cnt s) && truthy (members cur)
      then cur :: pack (restart cur s)
                    (snd (carry_over (members cur)) + cnt s) rest
      else pack (extend cur s) (running + cnt s) rest
  end.

(** What links a group to the one flushed before it. *)
Definition follows (prev g : Group T) : Prop :=
  carried g = fst (carry_over (members prev))
  /\ fresh g <> []
  /\ forall x, x ∈ fresh g -> x ∉ members prev.

End Packing.

Definition empty_group {T} : Group T := {| carried := []; fresh := [] |}.

(** [R] holds between [prev] and the head of [l], and between every two
    neighbours of [l]. *)
Fixpoint chain {A} (R : A -> A -> Prop) (prev : A) (l : list A) : Prop :=
  match l with
  | [] => True
  | x :: rest => R prev x /\ chain R x rest
  end.

(** The longest suffix of [prev] that is a prefix of [cur]: the leading
    run of [cur] that also appears at the tail of [prev]. *)
Fixpoint shared_run {T} `{EqDecision T} (prev cur : list T) : list T :=
  match prev with
  | [] => []
  | _ :: tl =>
      if bool_decide (prev `prefix_of` cur) then prev else shared_run tl cur
  end.

(** What is left of a chunk once the run shared with the previous chunk
    is stripped. *)
Definition strip_shared {T} `{EqDecision T} (prev cur : list T) : list T :=
  drop (length (shared_run prev cur)) cur.

(** First chunk whole, later chunks stripped. *)
Fixpoint recover {T} `{EqDecision T} (prev : list T) (later : list (list T))
  : list T :=
  match later with
  | [] => []
  | cur :: rest => strip_shared prev cur ++ recover cur rest
  end.

Definition reconstruct {T} `{EqDecision T} (groups : list (list T)) : list T :=
  match groups with
  | [] => []
  | first :: later => first ++ recover first later
  end.

Section Layout.
Context `{RT : Runtime}.

Definition sentence_tc (s : Sentence) : Z := tc (snd s).

(** The chunks of a request whose segmentation is [sentences], as
    groups of sentence occurrences. *)
Definition layout (req : ChunkRequest) (sentences : list pystr)
  : list (Group Sentence) :=
  pack sentence_tc (max_tokens req) (overlap req) empty_group 0
    (occurrences (usable sentences)).

(** The text of a chunk. *)
Definition render (g : Group Sentence) : pystr :=
  join space (snd <$> members g).

Definition group_tokens (g : Group Sentence) : Z :=
  total sentence_tc (members g).

End Layout.

(** ** The variant that caches token counts

    As [chunk], except that the buffer keeps, next to every sentence, the
    count computed for it in the main pass, and the backward scan reads
    that count instead of tokenizing the sentence again. *)

Record LoopCached : Type := {
  cached_chunks : list pystr;
  cached_sentences : list (pystr * Z);
  cached_token_count : Z
}.

Section Cached.
Context `{RT : Runtime}.

Fixpoint overlap_scan_cached (overlap_budget : Z)
    (rev_sents : list (pystr * Z)) (overlap_sents : list (pystr * Z))
    (overlap_count : Z) : list (pystr * Z) * Z :=
  match rev_sents with
  | [] => (overlap_sents, overlap_count)
  | entry :: rest =>
      let s_tc := snd entry in
      if overlap_budget <? overlap_count + s_tc
      then (overlap_sents, overlap_count)
      else overlap_scan_cached overlap_budget rest
             (entry :: overlap_sents) (overlap_count + s_tc)
  end.

Definition loop_body_cached (word_tok : WordTokenize) (req : ChunkRequest)
    (st : LoopCached) (sent : pystr) : res LoopCached :=
  let sent := strip sent in
  if negb (truthy sent) then Ok st
  else
    (sent_tokens <- word_tok sent newmm false ;;
     let sent_token_count := len sent_tokens in
     let st1 :=
       if (max_tokens req <? cached_token_count st + sent_token_count)
          && truthy (cached_sentences st)
       then
         let chunks1 :=
           cached_chunks st ++ [join space (fst <$> cached_sentences st)] in
         if 0 <? overlap req
         then
           let kept := overlap_scan_cached (overlap req)
                         (reverse (cached_sentences st)) [] 0 in
           {| cached_chunks := chunks1;
              cached_sentences := fst kept;
              cached_token_count := snd kept |}
         else
           {| cached_chunks := chunks1;
              cached_sentences := [];
              cached_token_count := 0 |}
       else st in
     Ok {| cached_chunks := cached_chunks st1;
           cached_sentences := cached_sentences st1 ++ [(sent, sent_token_count)];
           cached_token_count := cached_token_count st1 + sent_token_count |})%res.

Definition loop_init_cached : LoopCached :=
  {| cached_chunks := []; cached_sentences := []; cached_token_count := 0 |}.

Definition flush_remaining_cached (st : LoopCached) : list pystr :=
  if truthy (cached_sentences st)
  then cached_chunks st ++ [join space (fst <$> cached_sentences st)]
  else cached_chunks st.

Definition chunk_try_cached (t0 t1 : float) (req : ChunkRequest)
  : M ChunkResponse :=
  (sent_tok <- get_sent_tokenize ;;
   word_tok <- get_tokenize ;;
   sentences <- lift (sent_tok (text req)) ;;
   if negb (truthy sentences) then ret (whole_text t0 t1 req)
   else
     st <- lift (for_each (loop_body_cached word_tok req) sentences
                   loop_init_cached) ;;
     let chunks := flush_remaining_cached st in
     ret {| chunks := chunks; count := len chunks;
            elapsed_ms := round_elapsed t0 t1 |})%py.

Definition chunk_cached (t0 t1 : float) (req : ChunkRequest) (g : Globals)
  : ChunkResponse * Globals :=
  match chunk_try_cached t0 t1 req g with
  | (Ok response, g') => (response, g')
  | (Raise _, g') => (whole_text t0 t1 req, g')
  end.

End Cached.

(** ** What a call returns, without the state *)

Section Outcome.
Context `{RT : Runtime}.

(** The chunks [chunk] computes when the lazily loaded globals hold
    what the imports bind: the [try] block without the state. *)
Definition chunk_outcome (req : ChunkRequest) : res (list pystr) :=
  (sent_tok <- import_sent_tokenize ;;
   word_tok <- import_word_tokenize ;;
   sentences <- sent_tok (text req) ;;
   if negb (truthy sentences) then Ok [text req]
   else
     st <- for_each (loop_body word_tok req) sentences loop_init ;;
     Ok (flush_remaining st))%res.

Definition response_of (t0 t1 : float) (req : ChunkRequest)
    (outcome : res (list pystr)) : ChunkResponse :=
  match outcome with
  | Ok cs => {| chunks := cs; count := len cs; elapsed_ms := round_elapsed t0 t1 |}
  | Raise _ => whole_text t0 t1 req
  end.

(** The request reaches the packing loop with segmentation [sentences]
    and no operation of the adapter raises. *)
Definition runs_normally (req : ChunkRequest) (sentences : list pystr) : Prop :=
  segment_sentences (text req) = Ok sentences
  /\ sentences <> []
  /\ (exists f, import_word_tokenize = Ok f)
  /\ Forall counts (usable sentences).

(** Some operation of the adapter raises on the way. *)
Definition adapter_fails (req : ChunkRequest) : Prop :=
  (exists e, segment_sentences (text req) = Raise e)
  \/ (exists e, import_word_tokenize = Raise e)
  \/ (exists sentences s e,
        segment_sentences (text req) = Ok sentences
        /\ s ∈ usable sentences /\ count_tokens s = Raise e).
End Outcome.

(** The state of the source loop that a state of the caching loop stands for. *)
Definition forget (st : LoopCached) : Loop :=
  {| loop_chunks := cached_chunks st;
     current_sentences := (cached_sentences st).*1;
     current_token_count := cached_token_count st |}.

(** Every cached count is what the tokenizer returns for its sentence. *)
Definition entries_ok (word_tok : WordTokenize) (entries : list (pystr * Z)) : Prop :=
  Forall (fun entry => exists toks,
            word_tok entry.1 newmm false = Ok toks /\ entry.2 = len toks)
    entries.

Definition res_map {A B} (f : A -> B) (r : res A) : res B :=
  match r with
  | Ok a => Ok (f a)
  | Raise e => Raise e
  end.

(** ** A small runtime to run the endpoint on

    Sentences are the lines of the text and every non-blank character is
    one token; segmentation raises on a text with a NUL character, and
    tokenization on a sentence with a ['#']. *)

Module Demo.

Fixpoint lines_from (acc : pystr) (s : pystr) : list pystr :=
  match s with
  | [] => [rev acc]
  | c :: s' =>
      if (c =? 10)%N then rev acc :: lines_from [] s'
      else lines_from (c :: acc) s'
  end.

Definition has_hash (s : pystr) : bool := existsb (N.eqb 35) s.
Definition has_nul (s : pystr) : bool := existsb (N.eqb 0) s.

Definition sent_tokenize : SentTokenize := fun txt =>
  if has_nul txt then Raise (PyExc "ValueError")
  else Ok (lines_from [] txt).

Definition word_tokenize : WordTokenize := fun txt _ _ =>
  if has_hash txt then Raise (PyExc "ValueError")
  else Ok (map (fun c => [c]) (List.filter (fun c => negb (py_isspace c)) txt)).

#[export] Instance runtime : Runtime := {|
  float := Z;
  round_elapsed := fun t0 t1 => (t1 - t0) * 1000;
  import_sent_tokenize := Ok sent_tokenize;
  import_word_tokenize := Ok word_tokenize
|}.

(** A sentence of [n] tokens. *)
Definition sentence_of (c : string) (n : nat) : pystr :=
  concat (repeat (py c) n).

Definition newline : pystr := [10%N].

Definition request (sents : list pystr) (max_tok over : Z) : ChunkRequest :=
  {| text := join newline sents; max_tokens := max_tok; overlap := over |}.

(** Sentences of 30, 20 and 40 tokens. *)
Definition three : list pystr :=
  [sentence_of "a" 30; sentence_of "b" 20; sentence_of "c" 40].

(** A sentence of 20 tokens and one of 60. *)
Definition small_big : list pystr :=
  [sentence_of "a" 20; sentence_of "b" 60].

End Demo.

(** * The other endpoints of the module *)

(** [str.split()]: the maximal runs of non-whitespace characters.
    [word] is the run being read, last character first. *)
Fixpoint split_from (word : pystr) (s : pystr) : list pystr :=
  match s with
  | [] => if truthy word then [reverse word] else []
  | c :: s' =>
      if py_isspace c
      then (if truthy word then reverse word :: split_from [] s'
            else split_from [] s')
      else split_from (c :: word) s'
  end.

Definition py_split (s : pystr) : list pystr := split_from [] s.

(** A string none of whose characters is whitespace. *)
Definition no_space (s : pystr) : Prop :=
  Forall (fun c => py_isspace c = false) s.

(** A non-empty string with no whitespace at either end. *)
Definition trimmed (s : pystr) : Prop :=
  (exists c rest, s = c :: rest /\ py_isspace c = false)
  /\ (exists c rest, s = rest ++ [c] /\ py_isspace c = false).

(** [a != b] on strings. *)
Definition str_ne (a b : pystr) : bool := negb (bool_decide (a = b)).

(** [pythainlp.util.normalize(text)] *)
Definition Normalize : Type := pystr -> res pystr.

(** [pythainlp.spell.correct(word)] *)
Definition Correct : Type := pystr -> res pystr.

(** The three other deferred imports; [thai_stopwords] is a function
    whose call returns a [frozenset] of words. *)
Class Toolkit : Type := {
  import_normalize : res Normalize;
  import_correct : res Correct;
  import_thai_stopwords : res (unit -> res (gset pystr))
}.

(** All five lazily loaded globals of the module. *)
Record ModuleState : Type := {
  loaded : Globals;
  _normalize_func : option Normalize;
  _correct_func : option Correct;
  _stopwords : option (gset pystr)
}.

Definition MS (A : Type) : Type := ModuleState -> res A * ModuleState.

Definition ms_ret {A} (a : A) : MS A := fun ms => (Ok a, ms).

Definition ms_bind {A B} (m : MS A) (k : A -> MS B) : MS B :=
  fun ms =>
    match m ms with
    | (Ok a, ms') => k a ms'
    | (Raise e, ms') => (Raise e, ms')
    end.

Definition ms_lift {A} (r : res A) : MS A := fun ms => (r, ms).

(** A computation on [_tokenize] and [_sent_tokenize] alone. *)
Definition with_globals {A} (m : M A) : MS A := fun ms =>
  match m (loaded ms) with
  | (r, g') =>
      (r, {| loaded := g';
             _normalize_func := _normalize_func ms;
             _correct_func := _correct_func ms;
             _stopwords := _stopwords ms |})
  end.

Declare Scope ms_scope.
Delimit Scope ms_scope with ms.
Notation "x <- m ;; k" := (ms_bind m (fun x => k))
  (at level 100, m at next level, right associativity) : ms_scope.

Definition no_state : ModuleState :=
  {| loaded := no_globals; _normalize_func := None;
     _correct_func := None; _stopwords := None |}.

Module TextRequest.
Record t : Type := { text : pystr }.
End TextRequest.

Module TokenizeRequest.
Record t : Type := { text : pystr; engine : pystr }.
End TokenizeRequest.

Module TokenizeResponse.
Record t `{Runtime} : Type := {
  tokens : list pystr;
  segmented : pystr;
  engine : pystr;
  elapsed_ms : float
}.
End TokenizeResponse.

Module NormalizeResponse.
Record t `{Runtime} : Type := {
  normalized : pystr;
  changed : bool;
  elapsed_ms : float
}.
End NormalizeResponse.

Module SpellcheckResponse.
Record t `{Runtime} : Type := {
  corrected : pystr;
  changed : bool;
  elapsed_ms : float
}.
End SpellcheckResponse.

Module StopwordsRequest.
Record t : Type := { tokens : list pystr }.
End StopwordsRequest.

Module StopwordsResponse.
Record t `{Runtime} : Type := {
  filtered : list pystr;
  removed : list pystr;
  elapsed_ms : float
}.
End StopwordsResponse.

(** ["ก" <= c <= "๏"] *)
Definition is_thai (c : N) : bool := ((3585 <=? c) && (c <=? 3663))%N.

Section Endpoints.
Context `{RT : Runtime} `{TK : Toolkit}.

Definition get_normalize : MS Normalize := fun ms =>
  match _normalize_func ms with
  | Some f => (Ok f, ms)
  | None =>
      match import_normalize with
      | Ok f => (Ok f, {| loaded := loaded ms;
                          _normalize_func := Some f;
                          _correct_func := _correct_func ms;
                          _stopwords := _stopwords ms |})
      | Raise e => (Raise e, ms)
      end
  end.

Definition get_correct : MS Correct := fun ms =>
  match _correct_func ms with
  | Some f => (Ok f, ms)
  | None =>
      match import_correct with
      | Ok f => (Ok f, {| loaded := loaded ms;
                          _normalize_func := _normalize_func ms;
                          _correct_func := Some f;
                          _stopwords := _stopwords ms |})
      | Raise e => (Raise e, ms)
      end
  end.

(** What [from pythainlp.corpus import thai_stopwords] followed by
    [thai_stopwords()] gives. *)
Definition load_stopwords : res (gset pystr) :=
  (f <- import_thai_stopwords ;; f tt)%res.

Definition get_stopwords : MS (gset pystr) := fun ms =>
  match _stopwords ms with
  | Some sw => (Ok sw, ms)
  | None =>
      match load_stopwords with
      | Ok sw => (Ok sw, {| loaded := loaded ms;
                            _normalize_func := _normalize_func ms;
                            _correct_func := _correct_func ms;
                            _stopwords := Some sw |})
      | Raise e => (Raise e, ms)
      end
  end.

(** *** [/tokenize] *)

Definition tokenize_try (t0 t1 : float) (req : TokenizeRequest.t)
  : MS TokenizeResponse.t :=
  (word_tokenize <- with_globals get_tokenize ;;
   tokens <- ms_lift (word_tokenize (TokenizeRequest.text req)
                        (TokenizeRequest.engine req) false) ;;
   let tokens := filter (fun t => strip t <> []) tokens in
   let segmented := join space tokens in
   ms_ret {| TokenizeResponse.tokens := tokens;
             TokenizeResponse.segmented := segmented;
             TokenizeResponse.engine := TokenizeRequest.engine req;
             TokenizeResponse.elapsed_ms := round_elapsed t0 t1 |})%ms.

Definition tokenize_fallback (t0 t1 : float) (req : TokenizeRequest.t)
  : TokenizeResponse.t :=
  {| TokenizeResponse.tokens := py_split (TokenizeRequest.text req);
     TokenizeResponse.segmented := TokenizeRequest.text req;
     TokenizeResponse.engine := py "fallback";
     TokenizeResponse.elapsed_ms := round_elapsed t0 t1 |}.

Definition tokenize (t0 t1 : float) (req : TokenizeRequest.t)
    (ms : ModuleState) : TokenizeResponse.t * ModuleState :=
  match tokenize_try t0 t1 req ms with
  | (Ok response, ms') => (response, ms')
  | (Raise _, ms') => (tokenize_fallback t0 t1 req, ms')
  end.

(** *** [/normalize] *)

Definition normalize_try (t0 t1 : float) (req : TextRequest.t)
  : MS NormalizeResponse.t :=
  (normalize_text <- get_normalize ;;
   result <- ms_lift (normalize_text (TextRequest.text req)) ;;
   ms_ret {| NormalizeResponse.normalized := result;
             NormalizeResponse.changed := str_ne result (TextRequest.text req);
             NormalizeResponse.elapsed_ms := round_elapsed t0 t1 |})%ms.

Definition normalize_fallback (t0 t1 : float) (req : TextRequest.t)
  : NormalizeResponse.t :=
  {| NormalizeResponse.normalized := TextRequest.text req;
     NormalizeResponse.changed := false;
     NormalizeResponse.elapsed_ms := round_elapsed t0 t1 |}.

Definition normalize (t0 t1 : float) (req : TextRequest.t)
    (ms : ModuleState) : NormalizeResponse.t * ModuleState :=
  match normalize_try t0 t1 req ms with
  | (Ok response, ms') => (response, ms')
  | (Raise _, ms') => (normalize_fallback t0 t1 req, ms')
  end.

(** *** [/spellcheck] *)

(** One iteration of [for token in tokens]. *)
Definition spellcheck_body (correct : Correct)
    (corrected_tokens : list pystr) (token : pystr) : res (list pystr) :=
  let stripped := strip token in
  if truthy stripped && existsb is_thai stripped
  then (piece <- correct stripped ;; Ok (corrected_tokens ++ [piece]))%res
  else Ok (corrected_tokens ++ [token]).

Definition spellcheck_try (t0 t1 : float) (req : TextRequest.t)
  : MS SpellcheckResponse.t :=
  (word_tokenize <- with_globals get_tokenize ;;
   correct <- get_correct ;;
   tokens <- ms_lift (word_tokenize (TextRequest.text req) newmm true) ;;
   corrected_tokens <- ms_lift (for_each (spellcheck_body correct) tokens []) ;;
   let result := concat corrected_tokens in
   ms_ret {| SpellcheckResponse.corrected := result;
             SpellcheckResponse.changed := str_ne result (TextRequest.text req);
             SpellcheckResponse.elapsed_ms := round_elapsed t0 t1 |})%ms.

Definition spellcheck_fallback (t0 t1 : float) (req : TextRequest.t)
  : SpellcheckResponse.t :=
  {| SpellcheckResponse.corrected := TextRequest.text req;
     SpellcheckResponse.changed := false;
     SpellcheckResponse.elapsed_ms := round_elapsed t0 t1 |}.

Definition spellcheck (t0 t1 : float) (req : TextRequest.t)
    (ms : ModuleState) : SpellcheckResponse.t * ModuleState :=
  match spellcheck_try t0 t1 req ms with
  | (Ok response, ms') => (response, ms')
  | (Raise _, ms') => (spellcheck_fallback t0 t1 req, ms')
  end.

(** *** [/stopwords] *)

Definition filter_stopwords_try (t0 t1 : float) (req : StopwordsRequest.t)
  : MS StopwordsResponse.t :=
  (sw <- get_stopwords ;;
   let filtered := filter (fun t => t ∉ sw) (StopwordsRequest.tokens req) in
   let removed := filter (fun t => t ∈ sw) (StopwordsRequest.tokens req) in
   ms_ret {| StopwordsResponse.filtered := filtered;
             StopwordsResponse.removed := removed;
             StopwordsResponse.elapsed_ms := round_elapsed t0 t1 |})%ms.

Definition filter_stopwords_fallback (t0 t1 : float)
    (req : StopwordsRequest.t) : StopwordsResponse.t :=
  {| StopwordsResponse.filtered := StopwordsRequest.tokens req;
     StopwordsResponse.removed := [];
     StopwordsResponse.elapsed_ms := round_elapsed t0 t1 |}.

Definition filter_stopwords (t0 t1 : float) (req : StopwordsRequest.t)
    (ms : ModuleState) : StopwordsResponse.t * ModuleState :=
  match filter_stopwords_try t0 t1 req ms with
  | (Ok response, ms') => (response, ms')
  | (Raise _, ms') => (filter_stopwords_fallback t0 t1 req, ms')
  end.

(** *** [/chunk], on the whole module state *)

Definition chunk_endpoint (t0 t1 : float) (req : ChunkRequest)
    (ms : ModuleState) : ChunkResponse * ModuleState :=
  match chunk t0 t1 req (loaded ms) with
  | (response, g') =>
      (response, {| loaded := g';
                    _normalize_func := _normalize_func ms;
                    _correct_func := _correct_func ms;
                    _stopwords := _stopwords ms |})
  end.

(** Every lazily loaded global is unset or holds what its import gives. *)
Definition state_ok (ms : ModuleState) : Prop :=
  globals_ok (loaded ms)
  /\ cache_ok (_normalize_func ms) import_normalize
  /\ cache_ok (_correct_func ms) import_correct
  /\ cache_ok (_stopwords ms) load_stopwords.

End Endpoints.

(** A toolkit for the demo runtime: normalization removes zero-width
    spaces and raises on a NUL character, the corrector raises on the
    letter KHO KHUAT and otherwise rewrites KHO KHON into KHO KHWAI, and
    the stop words are two words. *)
Module DemoToolkit.

Definition normalize : Normalize := fun s =>
  if Demo.has_nul s then Raise (PyExc "ValueError")
  else Ok (List.filter (fun c => negb (c =? 8203)%N) s).

Definition correct : Correct := fun w =>
  if existsb (N.eqb 3587) w then Raise (PyExc "ValueError")
  else Ok (map (fun c => if (c =? 3589)%N then 3588%N else c) w).

Definition stop_words : gset pystr := {[ py "the"; py "a" ]}.

#[export] Instance toolkit : Toolkit := {|
  import_normalize := Ok normalize;
  import_correct := Ok correct;
  import_thai_stopwords := Ok (fun _ => Ok stop_words)
|}.

End DemoToolkit.

(** * Proofs *)

(** ** Strings *)

Lemma truthy_true {A} (xs : list A) : truthy xs = true <-> xs <> [].
Proof. destruct xs; simpl; split; congruence. Qed.

Lemma truthy_false {A} (xs : list A) : truthy xs = false <-> xs = [].
Proof. destruct xs; simpl; split; congruence. Qed.

Lemma join_nonempty (sep : pystr) (parts : list pystr) :
  parts <> [] -> Forall (fun p => p <> []) parts -> join sep parts <> [].
Proof.
  destruct parts as [|p rest]; [congruence|].
  intros _ Hall. apply Forall_cons in Hall as [Hp _].
  destruct rest; simpl; [assumption|].
  destruct p; [congruence|discriminate].
Qed.

Lemma elem_of_usable (sentences : list pystr) (s : pystr) :
  s ∈ usable sentences <-> s <> [] /\ exists raw, raw ∈ sentences /\ s = strip raw.
Proof.
  unfold usable. rewrite list_elem_of_filter, list_elem_of_fmap.
  split.
  - intros [Hne (raw & -> & Hin)]. eauto.
  - intros [Hne (raw & Hin & ->)]. eauto.
Qed.

Lemma usable_cons_blank (raw : pystr) (rest : list pystr) :
  strip raw = [] -> usable (raw :: rest) = usable rest.
Proof.
  intros Hb. unfold usable. rewrite fmap_cons, filter_cons.
  case_decide; [contradiction|reflexivity].
Qed.

Lemma usable_cons_kept (raw : pystr) (rest : list pystr) :
  strip raw <> [] -> usable (raw :: rest) = strip raw :: usable rest.
Proof.
  intros Hb. unfold usable. rewrite fmap_cons, filter_cons.
  case_decide; [reflexivity|contradiction].
Qed.

(** ** Packing *)

Section PackingFacts.
Context {T : Type} (cnt : T -> Z) (max_tok over : Z).
Hypothesis cnt_nonneg : forall s, 0 <= cnt s.

Local Abbreviation total := (total cnt).
Local Abbreviation keep_overlap := (keep_overlap cnt over).
Local Abbreviation carry_over := (carry_over cnt over).
Local Abbreviation pack := (pack cnt max_tok over).
Local Abbreviation extend := (@extend T).
Local Abbreviation restart := (restart cnt over).
Local Abbreviation follows := (follows cnt over).

Lemma total_app (l1 l2 : list T) : total (l1 ++ l2) = total l1 + total l2.
Proof. induction l1 as [|x l1 IH]; simpl; [|rewrite IH]; lia. Qed.

Lemma total_nonneg (l : list T) : 0 <= total l.
Proof. induction l as [|x l IH]; simpl; [lia|]. specialize (cnt_nonneg x). lia. Qed.

Lemma total_elem (l : list T) (s : T) : s ∈ l -> cnt s <= total l.
Proof.
  induction 1 as [x l|x y l _ IH]; simpl.
  - pose proof (total_nonneg l). lia.
  - specialize (cnt_nonneg y). lia.
Qed.

(** The scan keeps a suffix of the flushed buffer, in its order, and
    counts exactly what it keeps. *)
Lemma keep_overlap_spec (rev_sents kept : list T) (n : Z) :
  exists taken,
    taken `prefix_of` rev_sents
    /\ fst (keep_overlap rev_sents kept n) = reverse taken ++ kept
    /\ snd (keep_overlap rev_sents kept n) = n + total taken
    /\ (n <= over -> snd (keep_overlap rev_sents kept n) <= over).
Proof.
  revert kept n. induction rev_sents as [|s rest IH]; intros kept n; simpl.
  - exists []. simpl. split_and!; [done|done|lia|auto].
  - destruct (over <? n + cnt s) eqn:Hcmp.
    + exists []. simpl. split_and!; [apply prefix_nil|done|lia|auto].
    + apply Z.ltb_ge in Hcmp.
      destruct (IH (s :: kept) (n + cnt s)) as (taken & Hpre & Hfst & Hsnd & Hle).
      exists (s :: taken). split_and!.
      * by apply prefix_cons.
      * rewrite Hfst, reverse_cons, <- app_assoc. reflexivity.
      * rewrite Hsnd. simpl. lia.
      * intros _. apply Hle. lia.
Qed.

Lemma carry_over_suffix (flushed : list T) :
  fst (carry_over flushed) `suffix_of` flushed.
Proof.
  unfold carry_over. destruct (0 <? over); [|apply suffix_nil].
  destruct (keep_overlap_spec (reverse flushed) [] 0) as (taken & [rest Hpre] & -> & _).
  rewrite app_nil_r. exists (reverse rest).
  rewrite <- reverse_app, <- Hpre, reverse_involutive. reflexivity.
Qed.

Lemma total_reverse (l : list T) : total (reverse l) = total l.
Proof.
  induction l as [|x l IH]; [reflexivity|].
  rewrite reverse_cons, total_app, IH. simpl. lia.
Qed.

Lemma carry_over_total (flushed : list T) :
  snd (carry_over flushed) = total (fst (carry_over flushed)).
Proof.
  unfold carry_over. destruct (0 <? over); [|reflexivity].
  destruct (keep_overlap_spec (reverse flushed) [] 0) as (taken & _ & -> & -> & _).
  rewrite app_nil_r, total_reverse. lia.
Qed.

Lemma carry_over_bound (flushed : list T) :
  0 <= over -> snd (carry_over flushed) <= over.
Proof.
  intros Hov. unfold carry_over. destruct (0 <? over); [|simpl; lia].
  destruct (keep_overlap_spec (reverse flushed) [] 0) as (taken & _ & _ & _ & Hle).
  by apply Hle.
Qed.

Lemma carry_over_zero (flushed : list T) :
  over = 0 -> carry_over flushed = ([], 0).
Proof. intros ->. reflexivity. Qed.


(** *** The groups [pack] returns *)

Lemma pack_cons (cur : Group T) (running : Z) (s : T) (rest : list T) :
  pack cur running (s :: rest) =
    if (max_tok <? running + cnt s) && truthy (members cur)
    then cur :: pack (restart cur s)
                  (snd (carry_over (members cur)) + cnt s) rest
    else pack (extend cur s) (running + cnt s) rest.
Proof. reflexivity. Qed.

Lemma members_extend (cur : Group T) (s : T) :
  members (extend cur s) = members cur ++ [s].
Proof. unfold members, extend. simpl. by rewrite app_assoc. Qed.

(** The first group is the current buffer, extended by some of the
    sentences still to come. *)
Lemma pack_head (cur : Group T) (running : Z) (sents : list T)
    (g : Group T) (gs : list (Group T)) :
  pack cur running sents = g :: gs ->
  carried g = carried cur
  /\ exists more, fresh g = fresh cur ++ more /\ more ⊆ sents.
Proof.
  revert cur running. induction sents as [|s rest IH]; intros cur running.
  - simpl. destruct (truthy (members cur)); [|done].
    intros [= <- <-]. split; [done|]. exists []. by rewrite app_nil_r.
  - rewrite pack_cons. destruct (_ && _).
    + intros [= <- <-]. split; [done|].
      exists []. rewrite app_nil_r. split; [done|]. apply list_subseteq_nil.
    + intros Hp. apply IH in Hp as (Hc & more & Hf & Hsub).
      split; [done|]. exists (s :: more). simpl in Hf.
      rewrite Hf, <- app_assoc. split; [done|].
      intros x [->|Hx]%elem_of_cons; [left|right; by apply Hsub].
Qed.

(** Coverage: the new sentences of the groups, in order, are the
    sentences packed. *)
Lemma pack_fresh (cur : Group T) (running : Z) (sents : list T) :
  concat (fresh <$> pack cur running sents) = fresh cur ++ sents.
Proof.
  revert cur running. induction sents as [|s rest IH]; intros cur running.
  - simpl. rewrite app_nil_r. destruct (truthy (members cur)) eqn:Hm.
    + simpl. by rewrite app_nil_r.
    + apply truthy_false in Hm. apply app_eq_nil in Hm as [_ ->]. done.
  - rewrite pack_cons. destruct (_ && _).
    + rewrite fmap_cons. simpl. by rewrite IH.
    + rewrite IH. simpl. by rewrite <- app_assoc.
Qed.

(** Every group returned is non-empty, and an invariant of the buffer
    and its running count holds of it. *)
Lemma pack_invariant (Q : T -> Prop) (Inv : Group T -> Z -> Prop) :
  (forall cur running s,
      Inv cur running -> Q s ->
      (max_tok <? running + cnt s) && truthy (members cur) = false ->
      Inv (extend cur s) (running + cnt s)) ->
  (forall cur running s,
      Inv cur running -> Q s ->
      max_tok < running + cnt s -> members cur <> [] ->
      Inv (restart cur s) (snd (carry_over (members cur)) + cnt s)) ->
  forall sents cur running,
    Forall Q sents -> Inv cur running ->
    Forall (fun g => members g <> [] /\ exists n, Inv g n)
           (pack cur running sents).
Proof.
  intros Hext Hres. induction sents as [|s rest IH]; intros cur running HQ HI.
  - simpl. destruct (truthy (members cur)) eqn:Hne; [|constructor].
    apply truthy_true in Hne. constructor; [eauto|constructor].
  - apply Forall_cons in HQ as [Hs HQ]. rewrite pack_cons.
    destruct (_ && _) eqn:Hcond.
    + apply andb_true_iff in Hcond as [Hlt%Z.ltb_lt Hne%truthy_true].
      constructor; [eauto|]. apply (IH _ _ HQ). by apply (Hres cur running s).
    + apply (IH _ _ HQ). by apply Hext.
Qed.

(** *** Consecutive groups *)

Lemma chain_lookup {A} (R : A -> A -> Prop) (x : A) (l : list A)
    (i : nat) (a b : A) :
  chain R x l -> (x :: l) !! i = Some a -> (x :: l) !! S i = Some b -> R a b.
Proof.
  revert x i. induction l as [|y l IH]; intros x i Hch Ha Hb.
  - destruct i; simpl in Hb; [done|]. by destruct i.
  - destruct Hch as [Hxy Hch]. destruct i as [|i].
    + simpl in Ha, Hb. by simplify_eq.
    + eapply IH; eauto.
Qed.

Lemma pack_chain (sents : list T) (cur : Group T) (running : Z)
    (g : Group T) (gs : list (Group T)) :
  NoDup sents ->
  (forall x, x ∈ members cur -> x ∉ sents) ->
  pack cur running sents = g :: gs ->
  chain follows g gs.
Proof.
  revert cur running g gs.
  induction sents as [|s rest IH]; intros cur running g gs Hnd Hold.
  - simpl. destruct (truthy (members cur)); [|done]. by intros [= <- <-].
  - apply NoDup_cons in Hnd as [Hs Hnd]. rewrite pack_cons.
    destruct (_ && _) eqn:Hcond.
    + intros [= <- <-].
      destruct (pack (restart cur s) _ rest) as [|g' gs'] eqn:Hp; [done|].
      simpl. split.
      * apply pack_head in Hp as (Hc & more & Hf & Hsub).
        split_and!; [done|rewrite Hf; done|].
        intros x Hx Hm. apply (Hold x Hm).
        rewrite Hf in Hx. simpl in Hx.
        apply elem_of_cons in Hx as [->|Hx]; [left|right; by apply Hsub].
      * eapply IH; [done| |exact Hp].
        intros x Hx. unfold members, restart in Hx. simpl in Hx.
        apply elem_of_app in Hx as [Hx|Hx].
        -- pose proof (carry_over_suffix (members cur)) as [pre Hpre].
           intros Hr. apply (Hold x); [|by right].
           rewrite Hpre. apply elem_of_app. by right.
        -- apply list_elem_of_singleton in Hx as ->. done.
    + intros Hp. eapply IH; [done| |exact Hp].
      intros x Hx. rewrite members_extend in Hx.
      apply elem_of_app in Hx as [Hx|Hx].
      * intros Hr. apply (Hold x Hx). by right.
      * apply list_elem_of_singleton in Hx as ->. done.
Qed.

End PackingFacts.

(** ** The run shared by two consecutive chunks *)

Section SharedRun.
Context {T : Type} `{EqDecision T}.

Lemma shared_run_suffix (prev cur : list T) :
  shared_run prev cur `suffix_of` prev.
Proof.
  induction prev as [|p tl IH]; simpl; [done|].
  case_bool_decide; [done|]. by apply suffix_cons_r.
Qed.

Lemma shared_run_prefix (prev cur : list T) :
  shared_run prev cur `prefix_of` cur.
Proof.
  induction prev as [|p tl IH]; simpl; [apply prefix_nil|].
  by case_bool_decide.
Qed.

(** When the part of [cur] after [kept] is made of sentences that do not
    occur in [prev], the shared run is exactly [kept]. *)
Lemma shared_run_kept (prev kept new : list T) :
  kept `suffix_of` prev ->
  new <> [] ->
  (forall x, x ∈ new -> x ∉ prev) ->
  shared_run prev (kept ++ new) = kept.
Proof.
  intros Hsuf Hne. induction prev as [|p tl IH]; intros Hnew.
  - by apply suffix_nil_inv in Hsuf as ->.
  - simpl. case_bool_decide as Hpre.
    + destruct Hpre as [k Hk].
      apply app_eq_inv in Hk as [(k' & Hk' & _)|(k' & Hk' & Hk'')].
      * apply suffix_length in Hsuf. rewrite Hk', length_app in Hsuf.
        destruct k'; [by rewrite app_nil_r in Hk'|simpl in Hsuf; lia].
      * destruct k' as [|f k']; [by rewrite app_nil_r in Hk'|].
        exfalso. apply (Hnew f).
        -- rewrite Hk''. by left.
        -- rewrite Hk'. apply elem_of_app. right. by left.
    + assert (kept `suffix_of` tl) as Htl.
      { destruct kept as [|x kept']; [apply suffix_nil|].
        apply suffix_cons_inv in Hsuf as [Heq|?]; [|done].
        exfalso. apply Hpre. rewrite Heq. by apply prefix_app_r. }
      apply IH; [done|]. intros x Hx Hin. apply (Hnew x Hx). by right.
Qed.

End SharedRun.

Section Reconstruct.
Context {T : Type} `{EqDecision T} (cnt : T -> Z) (max_tok over : Z).

Lemma follows_shared_run (prev g : Group T) :
  follows cnt over prev g ->
  shared_run (members prev) (members g) = carried g.
Proof.
  intros (Hc & Hne & Hnew). unfold members at 2.
  apply shared_run_kept; [|done|done].
  rewrite Hc. by apply carry_over_suffix.
Qed.

Lemma recover_chain (prev : Group T) (gs : list (Group T)) :
  chain (follows cnt over) prev gs ->
  recover (members prev) (members <$> gs) = concat (fresh <$> gs).
Proof.
  revert prev. induction gs as [|g gs IH]; intros prev Hch; [done|].
  destruct Hch as [Hf Hch]. rewrite !fmap_cons. cbn [recover concat].
  rewrite (IH _ Hch). f_equal.
  unfold strip_shared. rewrite (follows_shared_run _ _ Hf).
  apply drop_app_length.
Qed.

Lemma reconstruct_pack (sents : list T) :
  NoDup sents ->
  reconstruct (members <$> pack cnt max_tok over empty_group 0 sents) = sents.
Proof.
  intros Hnd.
  pose proof (pack_fresh cnt max_tok over empty_group 0 sents) as Hcov.
  destruct (pack cnt max_tok over empty_group 0 sents) as [|g gs] eqn:Hp.
  - simpl in *. done.
  - pose proof (pack_head _ _ _ _ _ _ _ _ Hp) as (Hc & _).
    apply pack_chain in Hp; [|done|by intros x Hx; inversion Hx].
    rewrite fmap_cons. cbn [reconstruct]. rewrite (recover_chain _ _ Hp).
    rewrite fmap_cons in Hcov. cbn [concat] in Hcov.
    unfold members. rewrite Hc. done.
Qed.

End Reconstruct.

Section Simulation.
Context `{RT : Runtime}.

Lemma len_nonneg {A} (xs : list A) : 0 <= len xs.
Proof. unfold len. lia. Qed.

Lemma tc_nonneg (s : pystr) : 0 <= tc s.
Proof.
  unfold tc, count_tokens.
  destruct import_word_tokenize as [f|]; simpl; [|lia].
  destruct (f s newmm false); simpl; [apply len_nonneg|lia].
Qed.

Lemma sentence_tc_nonneg (s : Sentence) : 0 <= sentence_tc s.
Proof. apply tc_nonneg. Qed.

Lemma counts_word_tok (word_tok : WordTokenize) (s : pystr) :
  import_word_tokenize = Ok word_tok -> counts s ->
  exists toks, word_tok s newmm false = Ok toks /\ tc s = len toks.
Proof.
  intros Himp [n Hn]. unfold tc. rewrite Hn.
  unfold count_tokens in Hn. rewrite Himp in Hn. simpl in Hn.
  destruct (word_tok s newmm false) as [toks|]; simpl in Hn; [|done].
  exists toks. split; congruence.
Qed.

Lemma occurrences_texts (sents : list pystr) : (occurrences sents).*2 = sents.
Proof. unfold occurrences. apply snd_zip. by rewrite length_seq. Qed.

Lemma occurrences_NoDup (sents : list pystr) : NoDup (occurrences sents).
Proof.
  apply (NoDup_fmap_1 fst). unfold occurrences.
  rewrite fst_zip; [apply NoDup_seq|by rewrite length_seq].
Qed.

Lemma truthy_fmap {A B} (f : A -> B) (l : list A) : truthy (f <$> l) = truthy l.
Proof. by destruct l. Qed.

(** The backward scan of the source computes [keep_overlap]. *)
Lemma overlap_scan_keep (word_tok : WordTokenize) (ov : Z)
    (l kept : list Sentence) (n : Z) :
  import_word_tokenize = Ok word_tok ->
  Forall counts (l.*2) ->
  overlap_scan word_tok ov (l.*2) (kept.*2) n =
    Ok ((keep_overlap sentence_tc ov l kept n).1.*2,
        (keep_overlap sentence_tc ov l kept n).2).
Proof.
  intros Himp. revert kept n. induction l as [|s l IH]; intros kept n Hall.
  - reflexivity.
  - rewrite fmap_cons in Hall. apply Forall_cons in Hall as [Hs Hall].
    destruct (counts_word_tok _ _ Himp Hs) as (toks & Htok & Htc).
    rewrite fmap_cons. cbn [overlap_scan keep_overlap].
    rewrite Htok. cbn [res_bind].
    change (sentence_tc s) with (tc s.2). rewrite Htc.
    destruct (ov <? n + len toks); [done|].
    rewrite <- fmap_cons. by apply IH.
Qed.

(** The loop of the source, started in a state that holds the texts of
    [cur], returns the chunks of [pack]. *)
Lemma loop_pack (word_tok : WordTokenize) (req : ChunkRequest) :
  import_word_tokenize = Ok word_tok ->
  forall (sentences : list pystr) (us : list Sentence) (st : Loop)
         (cur : Group Sentence),
    us.*2 = usable sentences ->
    Forall counts (usable sentences) ->
    current_sentences st = (members cur).*2 ->
    Forall counts (current_sentences st) ->
    exists st',
      for_each (loop_body word_tok req) sentences st = Ok st'
      /\ flush_remaining st' =
           loop_chunks st ++
           (render <$> pack sentence_tc (max_tokens req) (overlap req)
                         cur (current_token_count st) us).
Proof.
  intros Himp. induction sentences as [|raw rest IH];
    intros us st cur Hus Hcnt Hcs Hbuf.
  - apply fmap_nil_inv in Hus as ->. exists st. split; [done|].
    unfold flush_remaining. cbn [pack]. rewrite Hcs, truthy_fmap.
    destruct (truthy (members cur)); [reflexivity|]. cbn. by rewrite app_nil_r.
  - cbn [for_each]. unfold loop_body at 1.
    destruct (decide (strip raw = [])) as [Hblank|Hkeep].
    + rewrite Hblank. cbn [truthy negb].
      rewrite (usable_cons_blank _ _ Hblank) in Hus, Hcnt. by apply IH.
    + rewrite (usable_cons_kept _ _ Hkeep) in Hus, Hcnt.
      apply Forall_cons in Hcnt as [Hs Hcnt].
      destruct us as [|u us]; [done|]. rewrite fmap_cons in Hus.
      injection Hus as Hu Hus.
      destruct (counts_word_tok _ _ Himp Hs) as (toks & Htok & Htc).
      apply truthy_true in Hkeep as Htr. rewrite Htr. cbn [negb].
      rewrite Htok. cbn [res_bind]. rewrite pack_cons.
      change (sentence_tc u) with (tc u.2). rewrite Hu, Htc, Hcs, truthy_fmap.
      destruct (_ && _) eqn:Hcond.
      * assert (exists st1,
            (if 0 <? overlap req
             then res_bind (overlap_scan word_tok (overlap req)
                              (reverse (members cur).*2) [] 0)
                    (fun kept => Ok {| loop_chunks := loop_chunks st ++ [join space (members cur).*2];
                                       current_sentences := kept.1;
                                       current_token_count := kept.2 |})
             else Ok {| loop_chunks := loop_chunks st ++ [join space (members cur).*2];
                        current_sentences := [];
                        current_token_count := 0 |}) = Ok st1
            /\ loop_chunks st1 = loop_chunks st ++ [render cur]
            /\ current_sentences st1 =
                 (carry_over sentence_tc (overlap req) (members cur)).1.*2
            /\ current_token_count st1 =
                 (carry_over sentence_tc (overlap req) (members cur)).2)
          as (st1 & -> & Hch1 & Hcs1 & Hct1).
        { unfold carry_over. destruct (0 <? overlap req); [|eauto].
          rewrite <- fmap_reverse.
          rewrite (overlap_scan_keep word_tok _ _ [] 0 Himp).
          - cbn [res_bind]. eauto.
          - rewrite fmap_reverse. apply Forall_reverse. by rewrite <- Hcs. }
        cbn [res_bind].
        edestruct (IH us
          {| loop_chunks := loop_chunks st1;
             current_sentences := current_sentences st1 ++ [strip raw];
             current_token_count := current_token_count st1 + len toks |}
          (restart sentence_tc (overlap req) cur u)) as (st' & Hrun & Hfl);
          [done|done| | |].
        -- cbn [current_sentences]. unfold members, restart. cbn [carried fresh].
           rewrite fmap_app, Hcs1, <- Hu. done.
        -- cbn [current_sentences]. apply Forall_app. split; [|by repeat constructor].
           rewrite Hcs1.
           destruct (carry_over_suffix sentence_tc (overlap req) (members cur)) as [pre Hpre].
           rewrite Hcs, Hpre, fmap_app in Hbuf. by apply Forall_app in Hbuf as [_ ?].
        -- exists st'. split; [done|]. rewrite Hfl. cbn [loop_chunks current_token_count].
           rewrite Hch1, Hct1, <- app_assoc. done.
      * cbn [res_bind].
        edestruct (IH us
          {| loop_chunks := loop_chunks st;
             current_sentences := current_sentences st ++ [strip raw];
             current_token_count := current_token_count st + len toks |}
          (extend cur u)) as (st' & Hrun & Hfl); [done|done| | |].
        -- cbn [current_sentences]. by rewrite members_extend, fmap_app, Hcs, <- Hu.
        -- cbn [current_sentences]. apply Forall_app. split; [done|by repeat constructor].
        -- exists st'. split; [done|]. by rewrite Hfl.
Qed.

End Simulation.

Section Chunk.
Context `{RT : Runtime}.

(** *** The lazily loaded globals *)

Lemma get_sent_tokenize_ok (g : Globals) :
  globals_ok g ->
  (get_sent_tokenize g).1 = import_sent_tokenize
  /\ globals_ok (get_sent_tokenize g).2.
Proof.
  intros Hg. pose proof Hg as [Hw Hs]. unfold get_sent_tokenize.
  destruct (_sent_tokenize g) as [f|] eqn:Hc.
  - simpl in Hs. by split.
  - destruct import_sent_tokenize as [f|e] eqn:Himp; (split; [done|]);
      [|exact Hg].
    split; [exact Hw|exact Himp].
Qed.

Lemma get_tokenize_ok (g : Globals) :
  globals_ok g ->
  (get_tokenize g).1 = import_word_tokenize
  /\ globals_ok (get_tokenize g).2.
Proof.
  intros Hg. pose proof Hg as [Hw Hs]. unfold get_tokenize.
  destruct (_tokenize g) as [f|] eqn:Hc.
  - simpl in Hw. by split.
  - destruct import_word_tokenize as [f|e] eqn:Himp; (split; [done|]);
      [|exact Hg].
    split; [exact Himp|exact Hs].
Qed.

(** With coherent globals, the response is the one of [chunk_outcome],
    and the globals stay coherent. *)
Lemma chunk_response (t0 t1 : float) (req : ChunkRequest) (g : Globals) :
  globals_ok g ->
  (chunk t0 t1 req g).1 = response_of t0 t1 req (chunk_outcome req)
  /\ globals_ok (chunk t0 t1 req g).2.
Proof.
  intros Hg. unfold chunk, chunk_try, chunk_outcome, bind.
  destruct (get_sent_tokenize_ok g Hg) as [Hs Hg1].
  destruct (get_sent_tokenize g) as [rs g1]. simpl in Hs, Hg1. subst rs.
  destruct import_sent_tokenize as [sent_tok|e]; [|done].
  destruct (get_tokenize_ok g1 Hg1) as [Hw Hg2].
  destruct (get_tokenize g1) as [rw g2]. simpl in Hw, Hg2. subst rw.
  destruct import_word_tokenize as [word_tok|e]; [|done].
  cbn [res_bind]. unfold lift, ret.
  destruct (sent_tok (text req)) as [sentences|e]; [|done].
  cbn [res_bind]. destruct (negb (truthy sentences)); [done|].
  destruct (for_each _ _ _) as [st|e]; done.
Qed.

(** *** The normal run *)

Lemma chunk_outcome_normal (req : ChunkRequest) (sentences : list pystr) :
  runs_normally req sentences ->
  chunk_outcome req = Ok (render <$> layout req sentences).
Proof.
  intros (Hseg & Hne & [word_tok Hw] & Hcnt).
  unfold chunk_outcome. unfold segment_sentences in Hseg.
  destruct import_sent_tokenize as [sent_tok|e]; [|done].
  cbn [res_bind] in *. rewrite Hw, Hseg. cbn [res_bind].
  apply truthy_true in Hne. rewrite Hne. cbn [negb].
  destruct (loop_pack word_tok req Hw sentences
              (occurrences (usable sentences)) loop_init empty_group)
    as (st' & -> & Hfl); [apply occurrences_texts|done|done|constructor|].
  cbn [res_bind]. by rewrite Hfl.
Qed.

Lemma chunk_normal (t0 t1 : float) (req : ChunkRequest) (g : Globals)
    (sentences : list pystr) :
  globals_ok g -> runs_normally req sentences ->
  chunks (chunk t0 t1 req g).1 = render <$> layout req sentences
  /\ count (chunk t0 t1 req g).1 = len (layout req sentences).
Proof.
  intros Hg Hrun. destruct (chunk_response t0 t1 req g Hg) as [-> _].
  rewrite (chunk_outcome_normal _ _ Hrun). cbn [response_of chunks count].
  split; [done|]. unfold len. by rewrite length_fmap.
Qed.

(** *** Failures *)

Lemma for_each_raises (word_tok : WordTokenize) (req : ChunkRequest)
    (sentences : list pystr) (s : pystr) (e : Exception) :
  s ∈ usable sentences ->
  word_tok s newmm false = Raise e ->
  forall st, exists e', for_each (loop_body word_tok req) sentences st = Raise e'.
Proof.
  intros Hin Hraise.
  induction sentences as [|raw rest IH]; intros st; [inversion Hin|].
  cbn [for_each].
  destruct (loop_body word_tok req st raw) as [st1|e1] eqn:Hbody; [|eauto].
  apply IH. destruct (decide (strip raw = [])) as [Hb|Hk].
  - by rewrite (usable_cons_blank _ _ Hb) in Hin.
  - rewrite (usable_cons_kept _ _ Hk) in Hin.
    apply elem_of_cons in Hin as [->|Hin]; [exfalso|done].
    unfold loop_body in Hbody. apply truthy_true in Hk.
    rewrite Hk, Hraise in Hbody. done.
Qed.

Lemma chunk_outcome_fails (req : ChunkRequest) :
  adapter_fails req -> exists e, chunk_outcome req = Raise e.
Proof.
  unfold adapter_fails, chunk_outcome, segment_sentences, count_tokens.
  intros [[e He]|[[e He]|(sentences & s & e & Hseg & Hin & He)]].
  - destruct import_sent_tokenize as [sent_tok|e0]; [|eauto].
    cbn [res_bind] in *.
    destruct import_word_tokenize as [word_tok|e1]; [|eauto].
    cbn [res_bind]. rewrite He. eauto.
  - rewrite He. destruct import_sent_tokenize; eauto.
  - destruct import_sent_tokenize as [sent_tok|e0]; [|done].
    destruct import_word_tokenize as [word_tok|e1]; [|eauto].
    cbn [res_bind] in *. rewrite Hseg. cbn [res_bind].
    assert (truthy sentences = true) as ->.
    { apply truthy_true. intros ->. inversion Hin. }
    cbn [negb].
    destruct (word_tok s newmm false) as [toks|e2] eqn:Htok; [done|].
    destruct (for_each_raises word_tok req sentences s e2 Hin Htok loop_init)
      as [e' ->]. eauto.
Qed.

End Chunk.

Section CachedFacts.
Context `{RT : Runtime}.

Lemma overlap_scan_cached_eq (word_tok : WordTokenize) (ov : Z)
    (l kept : list (pystr * Z)) (n : Z) :
  entries_ok word_tok l ->
  overlap_scan word_tok ov (l.*1) (kept.*1) n =
    Ok ((overlap_scan_cached ov l kept n).1.*1,
        (overlap_scan_cached ov l kept n).2).
Proof.
  revert kept n. induction l as [|entry l IH]; intros kept n Hall; [done|].
  apply Forall_cons in Hall as [(toks & Htok & Hn) Hall].
  rewrite fmap_cons. cbn [overlap_scan overlap_scan_cached].
  rewrite Htok, Hn. cbn [res_bind].
  destruct (ov <? n + len toks); [done|].
  rewrite <- fmap_cons. by apply IH.
Qed.

Lemma overlap_scan_cached_entries (word_tok : WordTokenize) (ov : Z)
    (l kept : list (pystr * Z)) (n : Z) :
  entries_ok word_tok l -> entries_ok word_tok kept ->
  entries_ok word_tok (overlap_scan_cached ov l kept n).1.
Proof.
  revert kept n. induction l as [|entry l IH]; intros kept n Hall Hkept; [done|].
  apply Forall_cons in Hall as [Hentry Hall]. cbn [overlap_scan_cached].
  destruct (ov <? n + entry.2); [done|].
  apply IH; [done|]. by constructor.
Qed.

Lemma loop_body_cached_eq (word_tok : WordTokenize) (req : ChunkRequest)
    (st : LoopCached) (raw : pystr) :
  entries_ok word_tok (cached_sentences st) ->
  loop_body word_tok req (forget st) raw
    = res_map forget (loop_body_cached word_tok req st raw)
  /\ forall st', loop_body_cached word_tok req st raw = Ok st' ->
                 entries_ok word_tok (cached_sentences st').
Proof.
  intros Hall. unfold loop_body, loop_body_cached.
  destruct (negb (truthy (strip raw))); [split; [done|by intros st' [= <-]]|].
  destruct (word_tok (strip raw) newmm false) as [toks|e] eqn:Htok;
    cbn [res_bind]; [|done].
  cbn [forget current_token_count current_sentences loop_chunks].
  rewrite truthy_fmap.
  destruct (_ && _).
  - destruct (0 <? overlap req).
    + rewrite <- fmap_reverse.
      rewrite (overlap_scan_cached_eq word_tok _ _ []);
        [|by apply Forall_reverse].
      cbn [res_bind res_map forget cached_chunks cached_sentences
           cached_token_count loop_chunks current_sentences
           current_token_count fst snd].
      split; [unfold forget; cbn; by rewrite fmap_app|].
      intros st' [= <-]. cbn [cached_sentences].
      apply Forall_app. split.
      * apply overlap_scan_cached_entries; [by apply Forall_reverse|constructor].
      * repeat constructor. eauto.
    + cbn [res_bind res_map forget cached_chunks cached_sentences
           cached_token_count loop_chunks current_sentences
           current_token_count].
      split; [done|]. intros st' [= <-]. repeat constructor. eauto.
  - cbn [res_bind res_map forget cached_chunks cached_sentences
         cached_token_count loop_chunks current_sentences
         current_token_count].
    split; [unfold forget; cbn; by rewrite fmap_app|].
    intros st' [= <-]. cbn [cached_sentences].
    apply Forall_app. split; [done|]. repeat constructor. eauto.
Qed.

Lemma for_each_cached_eq (word_tok : WordTokenize) (req : ChunkRequest)
    (sentences : list pystr) (st : LoopCached) :
  entries_ok word_tok (cached_sentences st) ->
  for_each (loop_body word_tok req) sentences (forget st)
    = res_map forget (for_each (loop_body_cached word_tok req) sentences st).
Proof.
  revert st. induction sentences as [|raw rest IH]; intros st Hall; [done|].
  cbn [for_each].
  destruct (loop_body_cached_eq word_tok req st raw Hall) as [-> Hnext].
  destruct (loop_body_cached word_tok req st raw) as [st1|e]; [|done].
  cbn [res_map]. apply IH. by apply Hnext.
Qed.

Lemma flush_remaining_forget (st : LoopCached) :
  flush_remaining (forget st) = flush_remaining_cached st.
Proof.
  unfold flush_remaining, flush_remaining_cached, forget.
  cbn [current_sentences loop_chunks]. by rewrite truthy_fmap.
Qed.

Lemma chunk_cached_eq (t0 t1 : float) (req : ChunkRequest) (g : Globals) :
  chunk_cached t0 t1 req g = chunk t0 t1 req g.
Proof.
  unfold chunk_cached, chunk, chunk_try_cached, chunk_try, bind.
  destruct (get_sent_tokenize g) as [[sent_tok|e] g1]; [|done].
  destruct (get_tokenize g1) as [[word_tok|e] g2]; [|done].
  unfold lift, ret.
  destruct (sent_tok (text req)) as [sentences|e]; [|done].
  destruct (negb (truthy sentences)); [done|].
  change loop_init with (forget loop_init_cached).
  rewrite for_each_cached_eq; [|constructor].
  destruct (for_each (loop_body_cached word_tok req) sentences loop_init_cached)
    as [st|e]; [|done].
  cbn [res_map]. by rewrite flush_remaining_forget.
Qed.

End CachedFacts.

(** ** Layouts *)

Section LayoutFacts.
Context `{RT : Runtime}.

Lemma total_singleton {T} (cnt : T -> Z) (s : T) : total cnt [s] = cnt s.
Proof. simpl. lia. Qed.

Lemma elem_of_occurrences (sents : list pystr) (s : Sentence) :
  s ∈ occurrences sents -> s.2 ∈ sents.
Proof.
  intros Hin. rewrite <- (occurrences_texts sents).
  by apply list_elem_of_fmap_2.
Qed.

Lemma Forall_occurrences (P : pystr -> Prop) (sents : list pystr) :
  Forall P sents -> Forall (fun s : Sentence => P s.2) (occurrences sents).
Proof.
  intros Hall. apply Forall_fmap. by rewrite occurrences_texts.
Qed.

(** Every group of a layout is non-empty and made of usable sentences. *)
Lemma layout_members (req : ChunkRequest) (sentences : list pystr) :
  Forall (fun g => members g <> []
                   /\ Forall (fun s : Sentence => s.2 ∈ usable sentences) (members g))
         (layout req sentences).
Proof.
  unfold layout.
  eapply Forall_impl.
  - apply (pack_invariant sentence_tc (max_tokens req) (overlap req)
             (fun s => s.2 ∈ usable sentences)
             (fun g _ => Forall (fun s : Sentence => s.2 ∈ usable sentences) (members g))).
    + intros cur running s Hcur Hs _. rewrite members_extend.
      apply Forall_app. split; [done|by repeat constructor].
    + intros cur running s Hcur Hs _ _. unfold members, restart. cbn [carried fresh].
      apply Forall_app. split; [|by repeat constructor].
      destruct (carry_over_suffix sentence_tc (overlap req) (members cur)) as [pre Hpre].
      rewrite Hpre in Hcur. by apply Forall_app in Hcur as [_ ?].
    + apply (Forall_occurrences (fun t => t ∈ usable sentences)), Forall_forall. auto.
    + constructor.
  - intros g [Hne [_ Hall]]. by split.
Qed.

Lemma render_nonempty (sentences : list pystr) (g : Group Sentence) :
  members g <> [] ->
  Forall (fun s : Sentence => s.2 ∈ usable sentences) (members g) ->
  render g <> [].
Proof.
  intros Hne Hall. unfold render. apply join_nonempty.
  - by destruct (members g).
  - apply Forall_fmap. eapply Forall_impl; [exact Hall|].
    intros s Hs. by apply elem_of_usable in Hs as [? _].
Qed.

Lemma layout_adjacent (req : ChunkRequest) (sentences : list pystr)
    (i : nat) (prev cur : Group Sentence) :
  layout req sentences !! i = Some prev ->
  layout req sentences !! S i = Some cur ->
  follows sentence_tc (overlap req) prev cur.
Proof.
  unfold layout. intros Hprev Hcur.
  destruct (pack _ _ _ _ _ _) as [|g gs] eqn:Hp; [done|].
  apply pack_chain in Hp;
    [|apply occurrences_NoDup|by intros x Hx; inversion Hx].
  eapply chain_lookup; eauto.
Qed.

End LayoutFacts.

(** * The properties of the chunking *)

Section Claims.
Context `{RT : Runtime}.

(** The two ways a segmentation can have no usable sentence.  An empty
    segmentation takes the [if not sentences] exit and returns the whole
    text; a segmentation of blank sentences goes through the loop, which
    skips them all, and returns no chunk. *)
Lemma chunk_empty_segmentation (t0 t1 : float) (req : ChunkRequest)
    (g : Globals) :
  globals_ok g ->
  segment_sentences (text req) = Ok [] ->
  (exists f, import_word_tokenize = Ok f) ->
  (chunk t0 t1 req g).1 = whole_text t0 t1 req.
Proof.
  intros Hg Hseg [word_tok Hw].
  destruct (chunk_response t0 t1 req g Hg) as [-> _].
  unfold chunk_outcome. unfold segment_sentences in Hseg.
  destruct import_sent_tokenize as [sent_tok|e]; [|done].
  cbn [res_bind] in *. rewrite Hw, Hseg. reflexivity.
Qed.

Lemma chunk_blank_segmentation (t0 t1 : float) (req : ChunkRequest)
    (g : Globals) (sentences : list pystr) :
  globals_ok g -> runs_normally req sentences -> usable sentences = [] ->
  chunks (chunk t0 t1 req g).1 = [] /\ count (chunk t0 t1 req g).1 = 0.
Proof.
  intros Hg Hrun Hblank.
  destruct (chunk_normal t0 t1 req g sentences Hg Hrun) as [-> ->].
  unfold layout. rewrite Hblank. split; reflexivity.
Qed.

(** C1 (as amended): when [max_tokens >= 1], [overlap >= 0] and every
    usable sentence counts at most [max_tokens] tokens, every chunk is
    made of sentences carried over from the previous chunk, of at most
    [overlap] tokens in total, followed by new sentences of at most
    [max_tokens] tokens in total; so a chunk has at most
    [max_tokens + overlap] tokens, and at most [max_tokens] when
    [overlap = 0]. *)
Theorem chunk_budget_with_overlap (t0 t1 : float) (req : ChunkRequest)
    (g : Globals) (sentences : list pystr) :
  globals_ok g -> runs_normally req sentences ->
  1 <= max_tokens req -> 0 <= overlap req ->
  Forall (fun s => tc s <= max_tokens req) (usable sentences) ->
  chunks (chunk t0 t1 req g).1 = render <$> layout req sentences
  /\ Forall (fun grp =>
               total sentence_tc (carried grp) <= overlap req
               /\ total sentence_tc (fresh grp) <= max_tokens req
               /\ group_tokens grp <= max_tokens req + overlap req)
            (layout req sentences).
Proof.
  intros Hg Hrun Hmax Hov Hsmall.
  split; [by apply (chunk_normal t0 t1 req g sentences)|].
  unfold layout. eapply Forall_impl.
  - apply (pack_invariant sentence_tc (max_tokens req) (overlap req)
             (fun s => sentence_tc s <= max_tokens req)
             (fun grp n =>
                n = total sentence_tc (members grp)
                /\ total sentence_tc (carried grp) <= overlap req
                /\ total sentence_tc (fresh grp) <= max_tokens req)).
    + intros cur running s (Hrunning & Hcar & Hfresh) Hs Hcond.
      rewrite members_extend, !total_app, total_singleton. cbn [extend carried fresh].
      rewrite total_app, total_singleton.
      split_and!; [lia|done|].
      apply andb_false_iff in Hcond as [Hle%Z.ltb_ge|Hempty%truthy_false].
      * unfold members in Hrunning. rewrite total_app in Hrunning.
        pose proof (total_nonneg sentence_tc sentence_tc_nonneg (carried cur)). lia.
      * apply app_eq_nil in Hempty as [_ ->]. simpl. lia.
    + intros cur running s _ Hs _ _. unfold members, restart. cbn [carried fresh].
      rewrite total_app, !total_singleton, <- carry_over_total.
      split_and!; [done| |done]. by apply carry_over_bound.
    + by apply (Forall_occurrences (fun t => tc t <= max_tokens req)).
    + simpl. split_and!; lia.
  - intros grp (_ & n & _ & Hcar & Hfresh). split_and!; [done|done|].
    unfold group_tokens, members. rewrite total_app. lia.
Qed.

(** C2 (as amended): a sentence whose token count alone exceeds
    [max_tokens] is the only new sentence of the chunk it is placed in:
    whatever else that chunk contains was carried over from the previous
    chunk.  When [overlap = 0] the chunk containing it contains no other
    sentence. *)
Theorem oversized_sentence_placement (t0 t1 : float) (req : ChunkRequest)
    (g : Globals) (sentences : list pystr) :
  globals_ok g -> runs_normally req sentences ->
  chunks (chunk t0 t1 req g).1 = render <$> layout req sentences
  /\ forall grp s,
       grp ∈ layout req sentences ->
       max_tokens req < sentence_tc s ->
       (s ∈ fresh grp -> fresh grp = [s])
       /\ (overlap req = 0 -> s ∈ members grp -> members grp = [s]).
Proof.
  intros Hg Hrun.
  split; [by apply (chunk_normal t0 t1 req g sentences)|].
  assert (Forall (fun grp =>
            (total sentence_tc (fresh grp) <= max_tokens req
             \/ (length (fresh grp) <= 1)%nat)
            /\ (overlap req = 0 -> carried grp = []))
          (layout req sentences)) as Hall.
  { unfold layout. eapply Forall_impl.
    - apply (pack_invariant sentence_tc (max_tokens req) (overlap req)
               (fun _ => True)
               (fun grp n =>
                  n = total sentence_tc (members grp)
                  /\ (total sentence_tc (fresh grp) <= max_tokens req
                      \/ (length (fresh grp) <= 1)%nat)
                  /\ (overlap req = 0 -> carried grp = []))).
      + intros cur running s (Hrunning & Hfresh & Hcar) _ Hcond.
        rewrite members_extend, total_app, total_singleton.
        split_and!; [lia| |done]. cbn [extend fresh].
        apply andb_false_iff in Hcond as [Hle%Z.ltb_ge|Hempty%truthy_false].
        * left. rewrite total_app, total_singleton.
          unfold members in Hrunning. rewrite total_app in Hrunning.
          pose proof (total_nonneg sentence_tc sentence_tc_nonneg (carried cur)). lia.
        * right. apply app_eq_nil in Hempty as [_ ->]. simpl. lia.
      + intros cur running s _ _ _ _. unfold members, restart. cbn [carried fresh].
        rewrite total_app, total_singleton, <- carry_over_total.
        split_and!; [done|right; simpl; lia|].
        intros Hzero. by rewrite carry_over_zero.
      + apply Forall_forall. auto.
      + split_and!; [done|right; simpl; lia|done].
    - intros grp (_ & n & _ & Hfresh & Hcar). by split. }
  intros grp s Hgrp Hbig.
  apply (proj1 (Forall_forall _ _) Hall) in Hgrp as [Hfresh Hcar].
  assert (s ∈ fresh grp -> fresh grp = [s]) as Halone.
  { intros Hin. destruct Hfresh as [Hle|Hlen].
    - pose proof (total_elem sentence_tc sentence_tc_nonneg _ _ Hin). lia.
    - destruct (fresh grp) as [|x [|y rest]]; [inversion Hin| |simpl in Hlen; lia].
      by apply list_elem_of_singleton in Hin as ->. }
  split; [done|].
  intros Hzero. unfold members. rewrite (Hcar Hzero). simpl. done.
Qed.

(** C4: the endpoint returns a response on every input, and whenever an
    operation of the adapter raises (segmentation, including its deferred
    import; the import of the tokenizer; the token count of any usable
    sentence) the response is the whole text as one chunk, with
    [count = 1]. *)
Theorem chunk_degrades_to_whole_text (t0 t1 : float) (req : ChunkRequest)
    (g : Globals) :
  globals_ok g -> adapter_fails req ->
  (chunk t0 t1 req g).1 = whole_text t0 t1 req
  /\ chunks (chunk t0 t1 req g).1 = [text req]
  /\ count (chunk t0 t1 req g).1 = 1.
Proof.
  intros Hg Hfail. destruct (chunk_response t0 t1 req g Hg) as [-> _].
  destruct (chunk_outcome_fails req Hfail) as [e ->]. done.
Qed.

(** C5: for every chunk after the first, the leading run of sentences
    that also appear at the tail of the previous chunk is what the flush
    carried over: it counts at most [overlap] tokens, it is a suffix of
    the previous chunk, in the same order, and when [overlap = 0] it is
    empty and the two chunks have no sentence in common.  A sentence is
    an occurrence in the document ([Sentence]): two sentences with the
    same text at different positions are different sentences. *)
Theorem overlap_run_bounded (t0 t1 : float) (req : ChunkRequest)
    (g : Globals) (sentences : list pystr) :
  globals_ok g -> runs_normally req sentences -> 0 <= overlap req ->
  chunks (chunk t0 t1 req g).1 = render <$> layout req sentences
  /\ forall (i : nat) (prev cur : Group Sentence),
       layout req sentences !! i = Some prev ->
       layout req sentences !! S i = Some cur ->
       let run := shared_run (members prev) (members cur) in
       run = carried cur
       /\ total sentence_tc run <= overlap req
       /\ run `suffix_of` members prev
       /\ run `prefix_of` members cur
       /\ (overlap req = 0 ->
           run = [] /\ forall s, s ∈ members prev -> s ∉ members cur).
Proof.
  intros Hg Hrun Hov.
  split; [by apply (chunk_normal t0 t1 req g sentences)|].
  intros i prev cur Hprev Hcur run.
  pose proof (layout_adjacent req sentences i prev cur Hprev Hcur) as Hfol.
  pose proof (follows_shared_run _ _ _ _ Hfol) as Hrun_eq.
  fold run in Hrun_eq. destruct Hfol as (Hcar & Hne & Hnew).
  split_and!.
  - done.
  - rewrite Hrun_eq, Hcar, <- carry_over_total. by apply carry_over_bound.
  - apply shared_run_suffix.
  - apply shared_run_prefix.
  - intros Hzero.
    assert (carried cur = []) as Hnil by (by rewrite Hcar, carry_over_zero).
    split; [by rewrite Hrun_eq|].
    intros s Hin Hin'. unfold members at 1 in Hin'.
    rewrite Hnil in Hin'. by apply (Hnew s).
Qed.

(** C6: taking the first chunk whole and every later chunk without the
    leading run it shares with the tail of the chunk before it gives back
    the usable sentences of the segmentation (as occurrences, and so also
    as texts), each once and in order. *)
Theorem chunks_cover_sentences (t0 t1 : float) (req : ChunkRequest)
    (g : Globals) (sentences : list pystr) :
  globals_ok g -> runs_normally req sentences ->
  chunks (chunk t0 t1 req g).1 = render <$> layout req sentences
  /\ reconstruct (members <$> layout req sentences)
       = occurrences (usable sentences)
  /\ (reconstruct (members <$> layout req sentences)).*2 = usable sentences.
Proof.
  intros Hg Hrun.
  split; [by apply (chunk_normal t0 t1 req g sentences)|].
  assert (reconstruct (members <$> layout req sentences)
          = occurrences (usable sentences)) as Heq
    by apply reconstruct_pack, occurrences_NoDup.
  split; [done|]. rewrite Heq. apply occurrences_texts.
Qed.

(** C7: every chunk text is the texts of its sentences joined by one
    space; each of these sentences is non-blank and is the trimmed form
    of a sentence of the segmentation; and a sentence that is blank after
    trimming leaves the chunks, the buffer and the running token count as
    they were. *)
Theorem chunk_text_joins_trimmed_sentences (t0 t1 : float)
    (req : ChunkRequest) (g : Globals) (sentences : list pystr) :
  globals_ok g -> runs_normally req sentences ->
  chunks (chunk t0 t1 req g).1
    = (fun grp => join space (members grp).*2) <$> layout req sentences
  /\ (forall grp s,
        grp ∈ layout req sentences -> s ∈ members grp ->
        s.2 <> [] /\ exists raw, raw ∈ sentences /\ s.2 = strip raw)
  /\ (forall word_tok st raw,
        strip raw = [] -> loop_body word_tok req st raw = Ok st).
Proof.
  intros Hg Hrun. split_and!.
  - by apply (chunk_normal t0 t1 req g sentences).
  - intros grp s Hgrp Hs.
    pose proof (layout_members req sentences) as Hall.
    apply (proj1 (Forall_forall _ _) Hall) in Hgrp as [_ Hmem].
    apply (proj1 (Forall_forall _ _) Hmem) in Hs.
    by apply elem_of_usable in Hs.
  - intros word_tok st raw Hblank. unfold loop_body. by rewrite Hblank.
Qed.

(** C8: the variant that caches the token count of every sentence in the
    main pass and reads it back in the backward scan returns the same
    response, and leaves the same globals, as the endpoint. *)
Theorem cached_counts_same_response (t0 t1 : float) (req : ChunkRequest)
    (g : Globals) :
  chunk_cached t0 t1 req g = chunk t0 t1 req g.
Proof. apply chunk_cached_eq. Qed.

(** C9: the chunks and the count of a response depend on the request
    only: not on the lazily loaded globals left by earlier calls, and not
    on the clock.  A call leaves the globals coherent for the next one. *)
Theorem chunk_depends_on_request_only (t0 t1 t0' t1' : float)
    (req : ChunkRequest) (g g' : Globals) :
  globals_ok g -> globals_ok g' ->
  chunks (chunk t0 t1 req g).1 = chunks (chunk t0' t1' req g').1
  /\ count (chunk t0 t1 req g).1 = count (chunk t0' t1' req g').1
  /\ globals_ok (chunk t0 t1 req g).2.
Proof.
  intros Hg Hg'.
  destruct (chunk_response t0 t1 req g Hg) as [-> Hnext].
  destruct (chunk_response t0' t1' req g' Hg') as [-> _].
  split_and!; [|  |done]; by destruct (chunk_outcome req).
Qed.

(** C10: when the segmentation has a usable sentence and nothing raises,
    the list of chunks is non-empty and no chunk text is empty. *)
Theorem chunks_nonempty (t0 t1 : float) (req : ChunkRequest)
    (g : Globals) (sentences : list pystr) :
  globals_ok g -> runs_normally req sentences -> usable sentences <> [] ->
  chunks (chunk t0 t1 req g).1 <> []
  /\ Forall (fun c => c <> []) (chunks (chunk t0 t1 req g).1).
Proof.
  intros Hg Hrun Hus.
  destruct (chunk_normal t0 t1 req g sentences Hg Hrun) as [-> _].
  split.
  - intros Hnil. apply fmap_nil_inv in Hnil.
    pose proof (pack_fresh sentence_tc (max_tokens req) (overlap req)
                  empty_group 0 (occurrences (usable sentences))) as Hcov.
    fold (layout req sentences) in Hcov. rewrite Hnil in Hcov.
    simpl in Hcov. apply Hus. rewrite <- (occurrences_texts (usable sentences)).
    by rewrite <- Hcov.
  - apply Forall_fmap. eapply Forall_impl; [apply layout_members|].
    intros grp [Hne Hall]. by apply (render_nonempty sentences).
Qed.

End Claims.

(** * More on the chunking *)

(** ** Trimmed strings *)

Lemma lstrip_head (s : pystr) (c : N) (rest : pystr) :
  lstrip s = c :: rest -> py_isspace c = false.
Proof.
  induction s as [|d s IH]; simpl; [done|].
  destruct (py_isspace d) eqn:Hd; [done|]. by intros [= <- <-].
Qed.

Lemma lstrip_suffix (s : pystr) : lstrip s `suffix_of` s.
Proof.
  induction s as [|d s IH]; simpl; [done|].
  destruct (py_isspace d); [by apply suffix_cons_r|done].
Qed.

Lemma lstrip_clean (c : N) (rest : pystr) :
  py_isspace c = false -> lstrip (c :: rest) = c :: rest.
Proof. intros Hc. simpl. by rewrite Hc. Qed.

Lemma strip_trimmed (s : pystr) : strip s <> [] -> trimmed (strip s).
Proof.
  unfold strip, rstrip. set (a := lstrip s).
  destruct (lstrip (reverse a)) as [|c rb] eqn:Hb; [done|]. intros _.
  pose proof (lstrip_head _ _ _ Hb) as Hc.
  pose proof (lstrip_suffix (reverse a)) as [pre Hpre]. rewrite Hb in Hpre.
  assert (a = reverse (c :: rb) ++ reverse pre) as Ha.
  { rewrite <- reverse_app, <- Hpre. by rewrite reverse_involutive. }
  rewrite reverse_cons in *. split.
  - destruct (reverse rb ++ [c]) as [|d rest] eqn:Hd.
    { by destruct (reverse rb). }
    exists d, rest. split; [done|].
    apply (lstrip_head s d (rest ++ reverse pre)). fold a. by rewrite Ha.
  - by exists c, (reverse rb).
Qed.

Lemma trimmed_strip (s : pystr) : trimmed s -> strip s = s.
Proof.
  intros [(c & rest & -> & Hc) (c' & rest' & Heq & Hc')].
  unfold strip, rstrip. rewrite (lstrip_clean _ _ Hc), Heq.
  rewrite reverse_app, reverse_singleton. cbn [app].
  rewrite (lstrip_clean _ _ Hc'), reverse_cons, reverse_involutive. done.
Qed.

Lemma strip_idempotent (s : pystr) : strip (strip s) = strip s.
Proof.
  destruct (decide (strip s = [])) as [->|Hne]; [done|].
  by apply trimmed_strip, strip_trimmed.
Qed.

Lemma join_cons (sep p q : pystr) (rest : list pystr) :
  join sep (p :: q :: rest) = p ++ sep ++ join sep (q :: rest).
Proof. reflexivity. Qed.

Lemma join_trimmed (parts : list pystr) :
  parts <> [] -> Forall trimmed parts -> trimmed (join space parts).
Proof.
  induction parts as [|p rest IH]; [done|]. intros _ Hall.
  apply Forall_cons in Hall as [Hp Hrest].
  destruct rest as [|q rest]; [done|].
  specialize (IH ltac:(done) Hrest).
  rewrite join_cons.
  destruct Hp as [(c & tl & -> & Hc) _].
  destruct IH as [_ (c' & tl' & -> & Hc')].
  split.
  - exists c, (tl ++ space ++ tl' ++ [c']). by split.
  - exists c', ((c :: tl) ++ space ++ tl'). split; [|done].
    by rewrite <- !app_assoc.
Qed.

Section PackingMore.
Context {T : Type} (cnt : T -> Z) (max_tok over : Z).
Hypothesis cnt_nonneg : forall s, 0 <= cnt s.

Local Abbreviation total := (total cnt).
Local Abbreviation keep_overlap := (keep_overlap cnt over).
Local Abbreviation carry_over := (carry_over cnt over).
Local Abbreviation pack := (pack cnt max_tok over).
Local Abbreviation restart := (restart cnt over).


(** Where the backward scan stops: at the end of the buffer, or in front
    of a sentence that no longer fits the overlap. *)
Lemma keep_overlap_stops (rev_sents kept : list T) (n : Z) :
  exists taken rest,
    rev_sents = taken ++ rest
    /\ fst (keep_overlap rev_sents kept n) = reverse taken ++ kept
    /\ snd (keep_overlap rev_sents kept n) = n + total taken
    /\ (rest = []
        \/ exists s rest', rest = s :: rest' /\ over < n + total taken + cnt s).
Proof.
  revert kept n. induction rev_sents as [|s rest IH]; intros kept n; simpl.
  - exists [], []. simpl. split_and!; [done|done|lia|by left].
  - destruct (over <? n + cnt s) eqn:Hcmp.
    + apply Z.ltb_lt in Hcmp. exists [], (s :: rest). simpl.
      split_and!; [done|done|lia|]. right. exists s, rest. split; [done|lia].
    + destruct (IH (s :: kept) (n + cnt s)) as (taken & rest' & Hsplit & Hfst & Hsnd & Hstop).
      exists (s :: taken), rest'. split_and!.
      * simpl. by rewrite Hsplit.
      * rewrite Hfst, reverse_cons, <- app_assoc. done.
      * rewrite Hsnd. simpl. lia.
      * destruct Hstop as [->|(s' & rest'' & -> & Hlt)]; [by left|].
        right. exists s', rest''. split; [done|]. simpl. lia.
Qed.

Lemma carry_over_longest (flushed : list T) :
  0 < over ->
  fst (carry_over flushed) = flushed
  \/ exists before s,
       flushed = before ++ s :: fst (carry_over flushed)
       /\ over < total (fst (carry_over flushed)) + cnt s.
Proof.
  intros Hov. unfold carry_over.
  apply Z.ltb_lt in Hov. rewrite Hov.
  destruct (keep_overlap_stops (reverse flushed) [] 0)
    as (taken & rest & Hsplit & -> & _ & Hstop).
  rewrite app_nil_r.
  assert (flushed = reverse rest ++ reverse taken) as Hfl.
  { rewrite <- reverse_app, <- Hsplit. by rewrite reverse_involutive. }
  destruct Hstop as [->|(s & rest' & -> & Hlt)].
  - left. by rewrite Hfl.
  - right. exists (reverse rest'), s. split.
    + rewrite Hfl, reverse_cons, <- app_assoc. done.
    + rewrite total_reverse. lia.
Qed.

(** A group is closed only in front of a sentence that does not fit. *)
Lemma pack_chain_full (sents : list T) (cur : Group T) (running : Z)
    (g : Group T) (gs : list (Group T)) :
  running = total (members cur) ->
  pack cur running sents = g :: gs ->
  chain (fun prev next =>
           exists f rest,
             fresh next = f :: rest
             /\ max_tok < total (members prev) + cnt f) g gs.
Proof.
  revert cur running g gs.
  induction sents as [|s rest IH]; intros cur running g gs Hrun.
  - simpl. destruct (truthy (members cur)); [|done]. by intros [= <- <-].
  - rewrite pack_cons. destruct (_ && _) eqn:Hcond.
    + apply andb_true_iff in Hcond as [Hlt%Z.ltb_lt _].
      intros [= <- <-].
      destruct (pack (restart cur s) _ rest) as [|g' gs'] eqn:Hp; [done|].
      simpl. split.
      * apply pack_head in Hp as (_ & more & Hf & _).
        exists s, more. split; [by rewrite Hf|by rewrite <- Hrun].
      * eapply IH; [|exact Hp].
        unfold members, restart. cbn [carried fresh].
        by rewrite total_app, total_singleton, <- carry_over_total.
    + intros Hp. eapply IH; [|exact Hp].
      by rewrite members_extend, total_app, total_singleton, Hrun.
Qed.

(** Every group has a sentence of its own. *)
Lemma pack_fresh_nonempty (sents : list T) (cur : Group T) (running : Z) :
  (members cur <> [] -> fresh cur <> []) ->
  Forall (fun g => fresh g <> []) (pack cur running sents).
Proof.
  intros Hcur. eapply Forall_impl.
  - apply (pack_invariant cnt max_tok over (fun _ => True)
             (fun g _ => members g <> [] -> fresh g <> [])).
    + intros g n s _ _ _ _. cbn [extend fresh]. by destruct (fresh g).
    + intros g n s _ _ _ _ _. done.
    + apply Forall_forall. auto.
    + exact Hcur.
  - intros g [Hne [_ Hg]]. by apply Hg.
Qed.

Lemma length_concat_nonempty {A} (ls : list (list A)) :
  Forall (fun l => l <> []) ls -> (length ls <= length (concat ls))%nat.
Proof.
  induction 1 as [|l ls Hl _ IH]; simpl; [lia|].
  rewrite length_app. destruct l; [done|]. simpl. lia.
Qed.

End PackingMore.

Section ChunkMore.
Context `{RT : Runtime}.


Lemma length_occurrences (sents : list pystr) :
  length (occurrences sents) = length sents.
Proof. by rewrite <- (occurrences_texts sents) at 2; rewrite length_fmap. Qed.

(** X1: on every path, whatever the globals hold, [count] is the number
    of chunks of the response. *)
Theorem chunk_count_is_length (t0 t1 : float) (req : ChunkRequest)
    (g : Globals) :
  count (chunk t0 t1 req g).1 = len (chunks (chunk t0 t1 req g).1).
Proof.
  unfold chunk, chunk_try, bind, lift, ret.
  destruct (get_sent_tokenize g) as [[sent_tok|e] g1]; [|done].
  destruct (get_tokenize g1) as [[word_tok|e] g2]; [|done].
  destruct (sent_tok (text req)) as [sentences|e]; [|done].
  destruct (negb (truthy sentences)); [done|].
  by destruct (for_each _ _ _).
Qed.


(** X3: a chunk is closed only when the next sentence does not fit: the
    tokens of a chunk plus those of the first new sentence of the next
    chunk exceed [max_tokens]. *)
Theorem chunk_closed_only_when_full (t0 t1 : float) (req : ChunkRequest)
    (g : Globals) (sentences : list pystr) :
  globals_ok g -> runs_normally req sentences ->
  chunks (chunk t0 t1 req g).1 = render <$> layout req sentences
  /\ forall (i : nat) (prev cur : Group Sentence),
       layout req sentences !! i = Some prev ->
       layout req sentences !! S i = Some cur ->
       exists f rest,
         fresh cur = f :: rest
         /\ max_tokens req < group_tokens prev + sentence_tc f.
Proof.
  intros Hg Hrun.
  split; [by apply (chunk_normal t0 t1 req g sentences)|].
  unfold layout. intros i prev cur Hprev Hcur.
  destruct (pack _ _ _ _ _ _) as [|g0 gs] eqn:Hp; [done|].
  apply pack_chain_full in Hp; [|done].
  exact (chain_lookup _ _ _ _ _ _ Hp Hprev Hcur).
Qed.

(** X4: with [overlap > 0], what a chunk carries over from the previous
    one is the longest tail that fits: either the whole previous chunk,
    or a tail whose tokens plus those of the sentence in front of it
    exceed [overlap]. *)
Theorem chunk_overlap_is_longest_tail (t0 t1 : float) (req : ChunkRequest)
    (g : Globals) (sentences : list pystr) :
  globals_ok g -> runs_normally req sentences -> 0 < overlap req ->
  chunks (chunk t0 t1 req g).1 = render <$> layout req sentences
  /\ forall (i : nat) (prev cur : Group Sentence),
       layout req sentences !! i = Some prev ->
       layout req sentences !! S i = Some cur ->
       carried cur = members prev
       \/ exists before s,
            members prev = before ++ s :: carried cur
            /\ overlap req < total sentence_tc (carried cur) + sentence_tc s.
Proof.
  intros Hg Hrun Hov.
  split; [by apply (chunk_normal t0 t1 req g sentences)|].
  intros i prev cur Hprev Hcur.
  destruct (layout_adjacent req sentences i prev cur Hprev Hcur) as (-> & _).
  by apply carry_over_longest.
Qed.

(** X5: every chunk holds at least one sentence that no earlier chunk
    holds, so there are at most as many chunks as usable sentences,
    whatever [max_tokens] and [overlap] are. *)
Theorem chunk_count_at_most_sentences (t0 t1 : float) (req : ChunkRequest)
    (g : Globals) (sentences : list pystr) :
  globals_ok g -> runs_normally req sentences ->
  Forall (fun grp => fresh grp <> []) (layout req sentences)
  /\ count (chunk t0 t1 req g).1 <= len (usable sentences).
Proof.
  intros Hg Hrun.
  assert (Forall (fun grp : Group Sentence => fresh grp <> [])
            (layout req sentences)) as Hall
    by (apply pack_fresh_nonempty; done).
  split; [done|].
  destruct (chunk_normal t0 t1 req g sentences Hg Hrun) as [_ ->].
  pose proof (pack_fresh sentence_tc (max_tokens req) (overlap req)
                empty_group 0 (occurrences (usable sentences))) as Hcov.
  fold (layout req sentences) in Hcov. cbn [empty_group fresh app] in Hcov.
  pose proof (length_concat_nonempty (fresh <$> layout req sentences)) as Hlen.
  rewrite Hcov, length_occurrences, length_fmap in Hlen.
  unfold len. apply inj_le, Hlen. by apply Forall_fmap.
Qed.

(** X6: on a run without failure every chunk text is non-empty and has
    no whitespace at either end: stripping it changes nothing. *)
Theorem chunk_texts_are_trimmed (t0 t1 : float) (req : ChunkRequest)
    (g : Globals) (sentences : list pystr) :
  globals_ok g -> runs_normally req sentences ->
  Forall (fun c => trimmed c /\ strip c = c) (chunks (chunk t0 t1 req g).1).
Proof.
  intros Hg Hrun.
  destruct (chunk_normal t0 t1 req g sentences Hg Hrun) as [-> _].
  apply Forall_fmap. eapply Forall_impl; [apply layout_members|].
  intros grp [Hne Hall]. cbn.
  assert (trimmed (render grp)) as Htr.
  { unfold render. apply join_trimmed; [by destruct (members grp)|].
    apply Forall_fmap. eapply Forall_impl; [exact Hall|].
    intros s Hs. cbn. apply elem_of_usable in Hs as [Hs (raw & _ & Heq)].
    rewrite Heq in *. by apply strip_trimmed. }
  split; [done|by apply trimmed_strip].
Qed.

End ChunkMore.

(** * The other endpoints *)

(** ** Splitting on whitespace *)

Lemma no_space_reverse (w : pystr) : no_space w -> no_space (reverse w).
Proof. apply Forall_reverse. Qed.

Lemma split_from_words (word s : pystr) :
  no_space word ->
  Forall (fun w => w <> [] /\ no_space w) (split_from word s).
Proof.
  revert word. induction s as [|c s IH]; intros word Hword; simpl.
  - destruct word as [|d word]; simpl; [constructor|].
    repeat constructor; [|by apply no_space_reverse].
    intros Hnil. apply (f_equal length) in Hnil.
    rewrite length_reverse in Hnil. done.
  - destruct (py_isspace c) eqn:Hc.
    + destruct word as [|d word]; simpl; [apply IH; constructor|].
      constructor; [|apply IH; constructor].
      split; [|by apply no_space_reverse].
      intros Hnil. apply (f_equal length) in Hnil.
      rewrite length_reverse in Hnil. done.
    + apply IH. by constructor.
Qed.


Lemma split_from_word (word w s : pystr) :
  no_space w -> split_from word (w ++ s) = split_from (reverse w ++ word) s.
Proof.
  revert word. induction w as [|c w IH]; intros word Hw; [done|].
  apply Forall_cons in Hw as [Hc Hw]. simpl. rewrite Hc.
  rewrite IH by done. by rewrite reverse_cons, <- app_assoc.
Qed.

Lemma truthy_reverse {A} (l : list A) : truthy (reverse l) = truthy l.
Proof.
  destruct l as [|x l]; [done|]. rewrite reverse_cons.
  by destruct (reverse l).
Qed.

(** Splitting the join of whitespace-free words gives the words back. *)
Lemma py_split_join (words : list pystr) :
  Forall (fun w => w <> [] /\ no_space w) words ->
  py_split (join space words) = words.
Proof.
  unfold py_split. induction 1 as [|w rest [Hne Hw] Hrest IH]; [done|].
  assert (truthy (reverse w) = true) as Htr
    by (rewrite truthy_reverse; by apply truthy_true).
  destruct rest as [|q rest].
  - cbn [join]. rewrite <- (app_nil_r w) at 1. rewrite split_from_word by done.
    rewrite app_nil_r. cbn [split_from]. by rewrite Htr, reverse_involutive.
  - rewrite join_cons, split_from_word by done. rewrite app_nil_r.
    change (space ++ join space (q :: rest))
      with (32%N :: join space (q :: rest)).
    cbn [split_from]. change (py_isspace 32) with true. cbv iota.
    by rewrite Htr, reverse_involutive, IH.
Qed.

Lemma no_space_trimmed (w : pystr) : w <> [] -> no_space w -> trimmed w.
Proof.
  intros Hne Hw. split.
  - destruct w as [|c rest]; [done|]. apply Forall_cons in Hw as [Hc _]. eauto.
  - destruct (reverse w) as [|c rest] eqn:Hr.
    { apply (f_equal length) in Hr. rewrite length_reverse in Hr.
      by destruct w. }
    exists c, (reverse rest). split.
    + by rewrite <- (reverse_involutive w), Hr, reverse_cons.
    + apply no_space_reverse in Hw. rewrite Hr in Hw.
      by apply Forall_cons in Hw as [? _].
Qed.

Section Tokenize.
Context `{RT : Runtime} `{TK : Toolkit}.

Lemma with_globals_get_tokenize (ms : ModuleState) :
  globals_ok (loaded ms) ->
  (with_globals get_tokenize ms).1 = import_word_tokenize.
Proof.
  intros Hg. unfold with_globals.
  destruct (get_tokenize_ok (loaded ms) Hg) as [Heq _].
  by destruct (get_tokenize (loaded ms)).
Qed.

(** What [tokenize] answers: the filtered tokens of the tokenizer in
    use, or the fallback. *)
Lemma tokenize_cases (t0 t1 : float) (req : TokenizeRequest.t)
    (ms : ModuleState) :
  (exists toks,
      TokenizeResponse.tokens (tokenize t0 t1 req ms).1
        = filter (fun t => strip t <> []) toks
      /\ TokenizeResponse.segmented (tokenize t0 t1 req ms).1
        = join space (filter (fun t => strip t <> []) toks)
      /\ TokenizeResponse.engine (tokenize t0 t1 req ms).1
        = TokenizeRequest.engine req)
  \/ (tokenize t0 t1 req ms).1 = tokenize_fallback t0 t1 req.
Proof.
  unfold tokenize, tokenize_try, ms_bind, ms_lift, ms_ret.
  destruct (with_globals get_tokenize ms) as [[word_tok|e] ms1]; [|by right].
  destruct (word_tok _ _ _) as [toks|e]; [|by right].
  left. by exists toks.
Qed.

(** X8: no token of a response is blank, on either path. *)
Theorem tokenize_tokens_never_blank (t0 t1 : float)
    (req : TokenizeRequest.t) (ms : ModuleState) :
  Forall (fun t => strip t <> [])
         (TokenizeResponse.tokens (tokenize t0 t1 req ms).1).
Proof.
  destruct (tokenize_cases t0 t1 req ms) as [(toks & -> & _)| ->].
  - apply Forall_forall. intros t Ht. by apply list_elem_of_filter in Ht as [? _].
  - cbn. eapply Forall_impl; [apply split_from_words; constructor|].
    intros w [Hne Hw]. cbn. by rewrite trimmed_strip; [|apply no_space_trimmed].
Qed.

(** X9: when no token contains whitespace, splitting [segmented] on
    whitespace gives the tokens back, on either path. *)
Theorem tokenize_segmented_splits_back (t0 t1 : float)
    (req : TokenizeRequest.t) (ms : ModuleState) :
  Forall no_space (TokenizeResponse.tokens (tokenize t0 t1 req ms).1) ->
  py_split (TokenizeResponse.segmented (tokenize t0 t1 req ms).1)
    = TokenizeResponse.tokens (tokenize t0 t1 req ms).1.
Proof.
  destruct (tokenize_cases t0 t1 req ms) as [(toks & -> & -> & _)| ->].
  - intros Hns. apply py_split_join.
    apply Forall_forall. intros t Ht. split.
    + apply list_elem_of_filter in Ht as [Hs _]. by intros ->.
    + by apply (proj1 (Forall_forall _ _) Hns).
  - done.
Qed.


End Tokenize.

Lemma str_ne_true (a b : pystr) : str_ne a b = true <-> a <> b.
Proof.
  unfold str_ne. rewrite negb_true_iff, bool_decide_eq_false. done.
Qed.

Lemma str_ne_same (a : pystr) : str_ne a a = false.
Proof. unfold str_ne. by rewrite bool_decide_eq_true_2. Qed.

Lemma strip_subseteq (s : pystr) : strip s ⊆ s.
Proof.
  assert (forall x : pystr, lstrip x ⊆ x) as Hsub.
  { intros x c Hc. destruct (lstrip_suffix x) as [pre Hpre].
    rewrite Hpre. apply elem_of_app. by right. }
  unfold strip, rstrip. intros c Hc.
  apply elem_of_reverse, Hsub, elem_of_reverse, Hsub in Hc. done.
Qed.

Lemma existsb_false_Forall {A} (f : A -> bool) (l : list A) :
  Forall (fun x => f x = false) l -> existsb f l = false.
Proof.
  induction 1 as [|x l Hx _ IH]; simpl; [done|]. by rewrite Hx, IH.
Qed.

Lemma elem_of_concat {A} (x : A) (l : list A) (ls : list (list A)) :
  x ∈ l -> l ∈ ls -> x ∈ concat ls.
Proof.
  intros Hx Hl. induction ls as [|l' ls IH]; [inversion Hl|].
  simpl. apply elem_of_app.
  apply elem_of_cons in Hl as [<-|Hl]; [by left|right; by apply IH].
Qed.

Lemma filter_twice {A} (P : A -> Prop) `{forall x, Decision (P x)} (l : list A) :
  filter P (filter P l) = filter P l.
Proof.
  induction l as [|x l IH]; [done|].
  rewrite filter_cons. case_decide; [|done].
  rewrite filter_cons. case_decide; [|done]. by rewrite IH.
Qed.

Lemma filter_none {A} (P : A -> Prop) `{forall x, Decision (P x)} (l : list A) :
  filter P (filter (fun x => ~ P x) l) = [].
Proof.
  induction l as [|x l IH]; [done|].
  rewrite filter_cons. case_decide; [|done].
  rewrite filter_cons. case_decide; done.
Qed.

Section Others.
Context `{RT : Runtime} `{TK : Toolkit}.

(** ** [/normalize] *)

(** X11: on either path [changed] is true exactly when [normalized]
    differs from the text of the request. *)
Theorem normalize_changed_flag (t0 t1 : float) (req : TextRequest.t)
    (ms : ModuleState) :
  NormalizeResponse.changed (normalize t0 t1 req ms).1 = true
  <-> NormalizeResponse.normalized (normalize t0 t1 req ms).1
        <> TextRequest.text req.
Proof.
  unfold normalize, normalize_try, ms_bind, ms_lift, ms_ret.
  destruct (get_normalize ms) as [[f|e] ms1]; [|by cbn].
  destruct (f (TextRequest.text req)) as [result|e]; [|by cbn].
  cbn. apply str_ne_true.
Qed.

Lemma get_normalize_ok (ms : ModuleState) :
  cache_ok (_normalize_func ms) import_normalize ->
  (get_normalize ms).1 = import_normalize
  /\ cache_ok (_normalize_func (get_normalize ms).2) import_normalize
  /\ loaded (get_normalize ms).2 = loaded ms
  /\ _correct_func (get_normalize ms).2 = _correct_func ms
  /\ _stopwords (get_normalize ms).2 = _stopwords ms.
Proof.
  intros Hc. unfold get_normalize.
  destruct (_normalize_func ms) as [f|] eqn:Hcache;
    [simpl in Hc; cbn; by rewrite Hcache|].
  destruct import_normalize as [f|e] eqn:Himp; cbn; [done|].
  by rewrite Hcache.
Qed.

Lemma get_correct_ok (ms : ModuleState) :
  cache_ok (_correct_func ms) import_correct ->
  (get_correct ms).1 = import_correct
  /\ cache_ok (_correct_func (get_correct ms).2) import_correct
  /\ loaded (get_correct ms).2 = loaded ms
  /\ _normalize_func (get_correct ms).2 = _normalize_func ms
  /\ _stopwords (get_correct ms).2 = _stopwords ms.
Proof.
  intros Hc. unfold get_correct.
  destruct (_correct_func ms) as [f|] eqn:Hcache;
    [simpl in Hc; cbn; by rewrite Hcache|].
  destruct import_correct as [f|e] eqn:Himp; cbn; [done|].
  by rewrite Hcache.
Qed.

Lemma get_stopwords_ok (ms : ModuleState) :
  cache_ok (_stopwords ms) load_stopwords ->
  (get_stopwords ms).1 = load_stopwords
  /\ cache_ok (_stopwords (get_stopwords ms).2) load_stopwords
  /\ loaded (get_stopwords ms).2 = loaded ms
  /\ _normalize_func (get_stopwords ms).2 = _normalize_func ms
  /\ _correct_func (get_stopwords ms).2 = _correct_func ms.
Proof.
  intros Hc. unfold get_stopwords.
  destruct (_stopwords ms) as [sw|] eqn:Hcache;
    [simpl in Hc; cbn; by rewrite Hcache|].
  destruct load_stopwords as [sw|e] eqn:Himp; cbn; [done|].
  by rewrite Hcache.
Qed.

(** X12: when normalization (or its import) raises, the text comes back
    as it was, with [changed] false. *)
Theorem normalize_failure_returns_text (t0 t1 : float) (req : TextRequest.t)
    (ms : ModuleState) :
  cache_ok (_normalize_func ms) import_normalize ->
  (exists e, (f <- import_normalize ;; f (TextRequest.text req))%res = Raise e) ->
  NormalizeResponse.normalized (normalize t0 t1 req ms).1 = TextRequest.text req
  /\ NormalizeResponse.changed (normalize t0 t1 req ms).1 = false.
Proof.
  intros Hc [e He]. unfold normalize, normalize_try, ms_bind, ms_lift, ms_ret.
  destruct (get_normalize_ok ms Hc) as (Hget & _).
  destruct (get_normalize ms) as [r ms1]. simpl in Hget. subst r.
  destruct import_normalize as [f|e0]; [|done].
  cbn [res_bind] in He. by rewrite He.
Qed.

(** ** [/spellcheck] *)

(** X13: on either path [changed] is true exactly when [corrected]
    differs from the text of the request. *)
Theorem spellcheck_changed_flag (t0 t1 : float) (req : TextRequest.t)
    (ms : ModuleState) :
  SpellcheckResponse.changed (spellcheck t0 t1 req ms).1 = true
  <-> SpellcheckResponse.corrected (spellcheck t0 t1 req ms).1
        <> TextRequest.text req.
Proof.
  unfold spellcheck, spellcheck_try, ms_bind, ms_lift, ms_ret.
  destruct (with_globals get_tokenize ms) as [[word_tok|e] ms1]; [|by cbn].
  destruct (get_correct ms1) as [[correct|e] ms2]; [|by cbn].
  destruct (word_tok _ _ _) as [toks|e]; [|by cbn].
  destruct (for_each _ _ _) as [pieces|e]; [|by cbn].
  cbn. apply str_ne_true.
Qed.

(** Tokens without a Thai character go through unchanged, and the
    corrector is not called. *)
Lemma spellcheck_loop_non_thai (correct : Correct) (toks acc : list pystr) :
  Forall (Forall (fun c => is_thai c = false)) toks ->
  for_each (spellcheck_body correct) toks acc = Ok (acc ++ toks).
Proof.
  intros Hall. revert acc.
  induction Hall as [|t toks Ht _ IH]; intros acc; [by rewrite app_nil_r|].
  cbn [for_each]. unfold spellcheck_body at 1.
  assert (existsb is_thai (strip t) = false) as ->.
  { apply existsb_false_Forall, Forall_forall. intros c Hc.
    by apply (proj1 (Forall_forall _ _) Ht), strip_subseteq. }
  rewrite andb_false_r, IH, <- app_assoc. done.
Qed.

(** X14: a text without any Thai character, cut by a tokenizer that
    loses nothing of it, comes back as it was, with [changed] false,
    whatever the corrector does. *)
Theorem spellcheck_leaves_non_thai_text (t0 t1 : float)
    (req : TextRequest.t) (ms : ModuleState) :
  globals_ok (loaded ms) ->
  Forall (fun c => is_thai c = false) (TextRequest.text req) ->
  (forall f toks,
      import_word_tokenize = Ok f ->
      f (TextRequest.text req) newmm true = Ok toks ->
      concat toks = TextRequest.text req) ->
  SpellcheckResponse.corrected (spellcheck t0 t1 req ms).1 = TextRequest.text req
  /\ SpellcheckResponse.changed (spellcheck t0 t1 req ms).1 = false.
Proof.
  intros Hg Hthai Hlossless.
  unfold spellcheck, spellcheck_try, ms_bind, ms_lift, ms_ret.
  pose proof (with_globals_get_tokenize ms Hg) as Hget.
  destruct (with_globals get_tokenize ms) as [rw ms1]. simpl in Hget. subst rw.
  destruct import_word_tokenize as [word_tok|e] eqn:Himp; [|done].
  destruct (get_correct ms1) as [[correct|e] ms2]; [|done].
  destruct (word_tok _ _ _) as [toks|e] eqn:Htok; [|done].
  specialize (Hlossless word_tok toks eq_refl Htok).
  rewrite spellcheck_loop_non_thai.
  - cbn. rewrite Hlossless. split; [done|apply str_ne_same].
  - apply Forall_forall. intros t Ht. apply Forall_forall. intros c Hc.
    apply (proj1 (Forall_forall _ _) Hthai). rewrite <- Hlossless.
    by apply (elem_of_concat c t toks).
Qed.

Lemma spellcheck_loop_raises (correct : Correct) (toks : list pystr)
    (t : pystr) (e : Exception) :
  t ∈ toks ->
  existsb is_thai (strip t) = true ->
  correct (strip t) = Raise e ->
  forall acc, exists e', for_each (spellcheck_body correct) toks acc = Raise e'.
Proof.
  intros Hin Hthai Hraise.
  induction toks as [|x toks IH]; intros acc; [inversion Hin|].
  cbn [for_each].
  destruct (spellcheck_body correct acc x) as [acc1|e1] eqn:Hbody; [|eauto].
  apply elem_of_cons in Hin as [<-|Hin]; [exfalso|by apply IH].
  unfold spellcheck_body in Hbody. rewrite Hthai, andb_true_r in Hbody.
  assert (truthy (strip t) = true) as Htr by (by destruct (strip t)).
  by rewrite Htr, Hraise in Hbody.
Qed.

(** X15: corrections are all or nothing: when the corrector raises on
    one Thai token, the whole text comes back as it was, with [changed]
    false, whatever was corrected before. *)
Theorem spellcheck_all_or_nothing (t0 t1 : float) (req : TextRequest.t)
    (ms : ModuleState) (word_tok : WordTokenize) (correct : Correct)
    (toks : list pystr) (t : pystr) (e : Exception) :
  globals_ok (loaded ms) ->
  cache_ok (_correct_func ms) import_correct ->
  import_word_tokenize = Ok word_tok ->
  import_correct = Ok correct ->
  word_tok (TextRequest.text req) newmm true = Ok toks ->
  t ∈ toks ->
  existsb is_thai (strip t) = true ->
  correct (strip t) = Raise e ->
  SpellcheckResponse.corrected (spellcheck t0 t1 req ms).1 = TextRequest.text req
  /\ SpellcheckResponse.changed (spellcheck t0 t1 req ms).1 = false.
Proof.
  intros Hg Hc Hw Hcor Htok Hin Hthai Hraise.
  unfold spellcheck, spellcheck_try, ms_bind, ms_lift, ms_ret.
  pose proof (with_globals_get_tokenize ms Hg) as Hget.
  assert (_correct_func (with_globals get_tokenize ms).2 = _correct_func ms) as Hsame.
  { unfold with_globals. by destruct (get_tokenize (loaded ms)). }
  destruct (with_globals get_tokenize ms) as [rw ms1]. simpl in Hget, Hsame. subst rw.
  rewrite Hw. rewrite <- Hsame in Hc.
  destruct (get_correct_ok ms1 Hc) as (Hgc & _).
  destruct (get_correct ms1) as [rc ms2]. simpl in Hgc. subst rc.
  rewrite Hcor, Htok.
  destruct (spellcheck_loop_raises correct toks t e Hin Hthai Hraise [])
    as [e' ->]. done.
Qed.

(** ** [/stopwords] *)

Lemma filter_stopwords_cases (t0 t1 : float) (req : StopwordsRequest.t)
    (ms : ModuleState) :
  (exists sw,
      (get_stopwords ms).1 = Ok sw
      /\ _stopwords (filter_stopwords t0 t1 req ms).2 = Some sw
      /\ StopwordsResponse.filtered (filter_stopwords t0 t1 req ms).1
           = filter (fun t => t ∉ sw) (StopwordsRequest.tokens req)
      /\ StopwordsResponse.removed (filter_stopwords t0 t1 req ms).1
           = filter (fun t => t ∈ sw) (StopwordsRequest.tokens req))
  \/ ((exists e, (get_stopwords ms).1 = Raise e)
      /\ (filter_stopwords t0 t1 req ms).2 = ms
      /\ (filter_stopwords t0 t1 req ms).1 = filter_stopwords_fallback t0 t1 req).
Proof.
  unfold filter_stopwords, filter_stopwords_try, ms_bind, ms_ret, get_stopwords.
  destruct (_stopwords ms) as [sw|] eqn:Hcache.
  - left. exists sw. cbn. by split_and!.
  - destruct load_stopwords as [sw|e].
    + left. exists sw. cbn. by split_and!.
    + right. cbn. split_and!; eauto.
Qed.

(** X16: on either path and whatever the state, the response splits the
    tokens in two: [filtered] and [removed] are sublists of the tokens, in
    their order, and together a rearrangement of them. *)
Theorem filter_stopwords_partitions (t0 t1 : float)
    (req : StopwordsRequest.t) (ms : ModuleState) :
  let r := (filter_stopwords t0 t1 req ms).1 in
  StopwordsResponse.filtered r ++ StopwordsResponse.removed r
    ≡ₚ StopwordsRequest.tokens req
  /\ StopwordsResponse.filtered r `sublist_of` StopwordsRequest.tokens req
  /\ StopwordsResponse.removed r `sublist_of` StopwordsRequest.tokens req
  /\ (length (StopwordsResponse.filtered r)
      + length (StopwordsResponse.removed r)
      = length (StopwordsRequest.tokens req))%nat.
Proof.
  intros r.
  assert (StopwordsResponse.filtered r ++ StopwordsResponse.removed r
            ≡ₚ StopwordsRequest.tokens req
          /\ StopwordsResponse.filtered r `sublist_of` StopwordsRequest.tokens req
          /\ StopwordsResponse.removed r `sublist_of` StopwordsRequest.tokens req)
    as (Hperm & Hf & Hr).
  { unfold r.
    destruct (filter_stopwords_cases t0 t1 req ms)
      as [(sw & _ & _ & -> & ->)|(_ & _ & ->)].
    - split_and!; [|apply sublist_filter..].
      rewrite (comm (++)). apply (filter_app_complement (fun t => t ∈ sw)).
    - cbn. rewrite app_nil_r. split_and!; [done|done|apply sublist_nil_l]. }
  split_and!; [done..|]. by rewrite <- length_app, Hperm.
Qed.

(** X17: with the stop words loaded, [removed] holds exactly the tokens
    that are stop words and [filtered] exactly those that are not. *)
Theorem filter_stopwords_sound (t0 t1 : float) (req : StopwordsRequest.t)
    (ms : ModuleState) (sw : gset pystr) :
  cache_ok (_stopwords ms) load_stopwords ->
  load_stopwords = Ok sw ->
  (forall t,
      t ∈ StopwordsResponse.filtered (filter_stopwords t0 t1 req ms).1
      <-> t ∈ StopwordsRequest.tokens req /\ t ∉ sw)
  /\ (forall t,
        t ∈ StopwordsResponse.removed (filter_stopwords t0 t1 req ms).1
        <-> t ∈ StopwordsRequest.tokens req /\ t ∈ sw).
Proof.
  intros Hc Hload.
  destruct (get_stopwords_ok ms Hc) as (Hget & _). rewrite Hload in Hget.
  destruct (filter_stopwords_cases t0 t1 req ms)
    as [(sw' & Hsw' & _ & -> & ->)|([e He] & _)]; [|congruence].
  assert (sw' = sw) as -> by congruence.
  split; intros t; rewrite list_elem_of_filter; tauto.
Qed.

(** X18: filtering is idempotent: filtering the [filtered] list of a
    response again, in the state the first call left, returns it as it
    is and removes nothing. *)
Theorem filter_stopwords_idempotent (t0 t1 t0' t1' : float)
    (req : StopwordsRequest.t) (ms : ModuleState) :
  let first := filter_stopwords t0 t1 req ms in
  let again :=
    filter_stopwords t0' t1'
      {| StopwordsRequest.tokens := StopwordsResponse.filtered first.1 |}
      first.2 in
  StopwordsResponse.filtered again.1 = StopwordsResponse.filtered first.1
  /\ StopwordsResponse.removed again.1 = [].
Proof.
  intros first again. unfold again, first.
  destruct (filter_stopwords_cases t0 t1 req ms)
    as [(sw & Hget & Hcache & -> & _)|([e He] & Hst & ->)].
  - set (ms1 := (filter_stopwords t0 t1 req ms).2) in *.
    set (req1 := {| StopwordsRequest.tokens := _ |}).
    destruct (filter_stopwords_cases t0' t1' req1 ms1)
      as [(sw' & Hget' & _ & -> & ->)|([e He] & _)].
    + unfold get_stopwords in Hget'. rewrite Hcache in Hget'.
      injection Hget' as <-. cbn.
      split; [apply filter_twice|apply (filter_none (fun t => t ∈ sw))].
    + unfold get_stopwords in He. by rewrite Hcache in He.
  - rewrite Hst. cbn.
    set (req1 := {| StopwordsRequest.tokens := _ |}).
    destruct (filter_stopwords_cases t0' t1' req1 ms)
      as [(sw' & Hget' & _)|(_ & _ & ->)]; [congruence|done].
Qed.

End Others.

Section State.
Context `{RT : Runtime} `{TK : Toolkit}.

(** ** The lazily loaded state *)

(** X7: the getters load once.  A getter that succeeds leaves its global
    set, so that calling it again returns the same value and changes
    nothing; a getter whose import raises leaves the state as it was. *)
Theorem getters_load_once (g : Globals) (ms : ModuleState) :
  match get_tokenize g with
  | (Ok f, g') => _tokenize g' = Some f /\ get_tokenize g' = (Ok f, g')
  | (Raise _, g') => g' = g
  end
  /\ match get_sent_tokenize g with
     | (Ok f, g') =>
         _sent_tokenize g' = Some f /\ get_sent_tokenize g' = (Ok f, g')
     | (Raise _, g') => g' = g
     end
  /\ match get_normalize ms with
     | (Ok f, ms') =>
         _normalize_func ms' = Some f /\ get_normalize ms' = (Ok f, ms')
     | (Raise _, ms') => ms' = ms
     end
  /\ match get_correct ms with
     | (Ok f, ms') =>
         _correct_func ms' = Some f /\ get_correct ms' = (Ok f, ms')
     | (Raise _, ms') => ms' = ms
     end
  /\ match get_stopwords ms with
     | (Ok sw, ms') =>
         _stopwords ms' = Some sw /\ get_stopwords ms' = (Ok sw, ms')
     | (Raise _, ms') => ms' = ms
     end.
Proof.
  split_and!.
  - unfold get_tokenize. destruct (_tokenize g) as [f|] eqn:Hc.
    + by rewrite Hc.
    + by destruct import_word_tokenize.
  - unfold get_sent_tokenize. destruct (_sent_tokenize g) as [f|] eqn:Hc.
    + by rewrite Hc.
    + by destruct import_sent_tokenize.
  - unfold get_normalize. destruct (_normalize_func ms) as [f|] eqn:Hc.
    + by rewrite Hc.
    + by destruct import_normalize.
  - unfold get_correct. destruct (_correct_func ms) as [f|] eqn:Hc.
    + by rewrite Hc.
    + by destruct import_correct.
  - unfold get_stopwords. destruct (_stopwords ms) as [sw|] eqn:Hc.
    + by rewrite Hc.
    + by destruct load_stopwords.
Qed.

Lemma with_globals_state_ok {A} (m : M A) (ms : ModuleState) :
  (globals_ok (loaded ms) -> globals_ok (m (loaded ms)).2) ->
  state_ok ms -> state_ok (with_globals m ms).2.
Proof.
  intros Hm (Hg & Hn & Hc & Hs). unfold with_globals.
  specialize (Hm Hg). destruct (m (loaded ms)) as [r g']. by split_and!.
Qed.

Lemma get_normalize_state_ok (ms : ModuleState) :
  state_ok ms -> state_ok (get_normalize ms).2.
Proof.
  intros (Hg & Hn & Hc & Hs).
  destruct (get_normalize_ok ms Hn) as (_ & Hn' & Hl & Hc' & Hs').
  unfold state_ok. by rewrite Hl, Hc', Hs'.
Qed.

Lemma get_correct_state_ok (ms : ModuleState) :
  state_ok ms -> state_ok (get_correct ms).2.
Proof.
  intros (Hg & Hn & Hc & Hs).
  destruct (get_correct_ok ms Hc) as (_ & Hc' & Hl & Hn' & Hs').
  unfold state_ok. by rewrite Hl, Hn', Hs'.
Qed.

Lemma get_stopwords_state_ok (ms : ModuleState) :
  state_ok ms -> state_ok (get_stopwords ms).2.
Proof.
  intros (Hg & Hn & Hc & Hs).
  destruct (get_stopwords_ok ms Hs) as (_ & Hs' & Hl & Hn' & Hc').
  unfold state_ok. by rewrite Hl, Hn', Hc'.
Qed.

(** X19: every endpoint leaves the state coherent: each lazily loaded
    global is still unset or what its import gives, so that the answers
    of later calls do not depend on the calls made before. *)
Theorem endpoints_keep_state_coherent (t0 t1 : float) (ms : ModuleState)
    (treq : TokenizeRequest.t) (xreq : TextRequest.t)
    (sreq : StopwordsRequest.t) (creq : ChunkRequest) :
  state_ok ms ->
  state_ok (tokenize t0 t1 treq ms).2
  /\ state_ok (normalize t0 t1 xreq ms).2
  /\ state_ok (spellcheck t0 t1 xreq ms).2
  /\ state_ok (filter_stopwords t0 t1 sreq ms).2
  /\ state_ok (chunk_endpoint t0 t1 creq ms).2.
Proof.
  intros Hok.
  assert (state_ok (with_globals get_tokenize ms).2) as Htok.
  { apply with_globals_state_ok; [|done]. intros Hg. by apply get_tokenize_ok. }
  split_and!.
  - unfold tokenize, tokenize_try, ms_bind, ms_lift, ms_ret.
    destruct (with_globals get_tokenize ms) as [[f|e] ms1]; [|done].
    by destruct (f _ _ _).
  - pose proof (get_normalize_state_ok ms Hok) as Hn.
    unfold normalize, normalize_try, ms_bind, ms_lift, ms_ret.
    destruct (get_normalize ms) as [[f|e] ms1]; [|done].
    by destruct (f _).
  - unfold spellcheck, spellcheck_try, ms_bind, ms_lift, ms_ret.
    destruct (with_globals get_tokenize ms) as [[f|e] ms1]; [|done].
    pose proof (get_correct_state_ok ms1 Htok) as Hc.
    destruct (get_correct ms1) as [[c|e] ms2]; [|done].
    destruct (f _ _ _) as [toks|e]; [|done].
    by destruct (for_each _ _ _).
  - pose proof (get_stopwords_state_ok ms Hok) as Hs.
    unfold filter_stopwords, filter_stopwords_try, ms_bind, ms_ret.
    by destruct (get_stopwords ms) as [[sw|e] ms1].
  - destruct Hok as (Hg & Hn & Hc & Hs). unfold chunk_endpoint.
    destruct (chunk_response t0 t1 creq (loaded ms) Hg) as [_ Hg'].
    destruct (chunk t0 t1 creq (loaded ms)) as [r g']. by split_and!.
Qed.

End State.

(** * The endpoint on concrete requests *)

Import Demo.

Lemma Forall_of_forallb {A} (P : A -> Prop) (f : A -> bool) (l : list A) :
  (forall x, f x = true -> P x) -> forallb f l = true -> Forall P l.
Proof.
  intros Hf. induction l as [|x l IH]; simpl; [constructor|].
  intros [Hx Hl]%andb_true_iff. constructor; auto.
Qed.

Lemma demo_counts (l : list pystr) :
  forallb (fun s => negb (has_hash s)) l = true -> Forall counts l.
Proof.
  apply Forall_of_forallb. intros s Hs. apply negb_true_iff in Hs.
  unfold counts, count_tokens. cbn [import_word_tokenize runtime res_bind].
  unfold word_tokenize. rewrite Hs. cbn [res_bind]. eauto.
Qed.

Lemma demo_small (bound : Z) (l : list pystr) :
  forallb (fun s => tc s <=? bound) l = true ->
  Forall (fun s => tc s <= bound) l.
Proof. apply Forall_of_forallb. intros s. apply Z.leb_le. Qed.

Lemma demo_globals : globals_ok no_globals.
Proof. split; exact I. Qed.

Lemma demo_three_runs (max_tok over : Z) :
  runs_normally (request three max_tok over) three.
Proof.
  split_and!.
  - vm_compute. reflexivity.
  - discriminate.
  - eexists. reflexivity.
  - apply demo_counts. vm_compute. reflexivity.
Qed.

Lemma demo_small_big_runs (max_tok over : Z) :
  runs_normally (request small_big max_tok over) small_big.
Proof.
  split_and!.
  - vm_compute. reflexivity.
  - discriminate.
  - eexists. reflexivity.
  - apply demo_counts. vm_compute. reflexivity.
Qed.

(** Sentences of 30, 20 and 40 tokens with [max_tokens = 50] and
    [overlap = 20]: the second chunk is the carried 20-token sentence
    followed by the 40-token one, 60 tokens in all, although no sentence
    exceeds 50 tokens. *)
Lemma budget_exceeded_after_carry_over :
  let req := request three 50 20 in
  valid_request req
  /\ runs_normally req three
  /\ Forall (fun s => tc s <= max_tokens req) (usable three)
  /\ chunks (chunk 0 1 req no_globals).1 = render <$> layout req three
  /\ exists grp,
       grp ∈ layout req three /\ max_tokens req < group_tokens grp.
Proof.
  intros req. split_and!.
  - vm_compute. intuition discriminate.
  - apply demo_three_runs.
  - apply demo_small. vm_compute. reflexivity.
  - vm_compute. reflexivity.
  - exists {| carried := [(1%nat, sentence_of "b" 20)];
              fresh := [(2%nat, sentence_of "c" 40)] |}.
    split; [|vm_compute; reflexivity].
    apply (list_elem_of_lookup_2 _ 1%nat). vm_compute. reflexivity.
Qed.

Lemma chunk_budget_with_overlap_witness :
  let req := request three 50 20 in
  chunks (chunk 0 1 req no_globals).1 = render <$> layout req three
  /\ Forall (fun grp =>
               total sentence_tc (carried grp) <= overlap req
               /\ total sentence_tc (fresh grp) <= max_tokens req
               /\ group_tokens grp <= max_tokens req + overlap req)
            (layout req three).
Proof.
  intros req.
  apply (chunk_budget_with_overlap (RT := runtime) 0 1 req no_globals three).
  - apply demo_globals.
  - apply demo_three_runs.
  - simpl. lia.
  - simpl. lia.
  - apply demo_small. vm_compute. reflexivity.
Defined.

(** A sentence of 20 tokens then one of 60, with [max_tokens = 50] and
    [overlap = 20]: the oversized sentence shares its chunk with the
    carried one. *)
Lemma oversized_sentence_not_alone :
  let req := request small_big 50 20 in
  valid_request req
  /\ runs_normally req small_big
  /\ chunks (chunk 0 1 req no_globals).1 = render <$> layout req small_big
  /\ exists grp s other,
       grp ∈ layout req small_big
       /\ s ∈ members grp /\ max_tokens req < sentence_tc s
       /\ other ∈ members grp /\ other <> s.
Proof.
  intros req. split_and!.
  - vm_compute. intuition discriminate.
  - apply demo_small_big_runs.
  - vm_compute. reflexivity.
  - exists {| carried := [(0%nat, sentence_of "a" 20)];
              fresh := [(1%nat, sentence_of "b" 60)] |},
           (1%nat, sentence_of "b" 60), (0%nat, sentence_of "a" 20).
    split_and!.
    + apply (list_elem_of_lookup_2 _ 1%nat). vm_compute. reflexivity.
    + right. left.
    + vm_compute. reflexivity.
    + left.
    + discriminate.
Qed.

Lemma oversized_sentence_placement_witness :
  let req := request small_big 50 0 in
  chunks (chunk 0 1 req no_globals).1 = render <$> layout req small_big
  /\ forall grp s,
       grp ∈ layout req small_big ->
       max_tokens req < sentence_tc s ->
       (s ∈ fresh grp -> fresh grp = [s])
       /\ (overlap req = 0 -> s ∈ members grp -> members grp = [s]).
Proof.
  intros req.
  apply (oversized_sentence_placement (RT := runtime) 0 1 req no_globals small_big).
  - apply demo_globals.
  - apply demo_small_big_runs.
Defined.

(** C3: on a text made of one space the segmentation is the one blank
    sentence; the loop skips it and the response has no chunk at all,
    [count = 0], where the claim has the whole text as one chunk.  (The
    empty segmentation, [if not sentences], does return the whole text.) *)
Theorem blank_sentences_yield_no_chunk :
  let req := {| text := py " "; max_tokens := 300; overlap := 50 |} in
  valid_request req
  /\ segment_sentences (text req) = Ok [py " "]
  /\ usable [py " "] = []
  /\ chunks (chunk 0 1 req no_globals).1 = []
  /\ count (chunk 0 1 req no_globals).1 = 0.
Proof.
  intros req. split_and!; try (vm_compute; reflexivity).
  vm_compute. intuition discriminate.
Qed.

Lemma chunk_degrades_to_whole_text_witness :
  let req := {| text := py "ab#"; max_tokens := 50; overlap := 0 |} in
  (chunk 0 1 req no_globals).1 = whole_text 0 1 req
  /\ chunks (chunk 0 1 req no_globals).1 = [text req]
  /\ count (chunk 0 1 req no_globals).1 = 1.
Proof.
  intros req.
  apply (chunk_degrades_to_whole_text (RT := runtime) 0 1 req no_globals).
  - apply demo_globals.
  - right. right. exists [py "ab#"], (py "ab#"), (PyExc "ValueError").
    split_and!.
    + vm_compute. reflexivity.
    + apply elem_of_usable. split; [discriminate|].
      exists (py "ab#"). split; [left|vm_compute; reflexivity].
    + vm_compute. reflexivity.
Defined.

Lemma overlap_run_bounded_witness :
  let req := request three 50 20 in
  chunks (chunk 0 1 req no_globals).1 = render <$> layout req three
  /\ forall (i : nat) (prev cur : Group Sentence),
       layout req three !! i = Some prev ->
       layout req three !! S i = Some cur ->
       let run := shared_run (members prev) (members cur) in
       run = carried cur
       /\ total sentence_tc run <= overlap req
       /\ run `suffix_of` members prev
       /\ run `prefix_of` members cur
       /\ (overlap req = 0 ->
           run = [] /\ forall s, s ∈ members prev -> s ∉ members cur).
Proof.
  intros req.
  apply (overlap_run_bounded (RT := runtime) 0 1 req no_globals three).
  - apply demo_globals.
  - apply demo_three_runs.
  - simpl. lia.
Defined.

Lemma chunks_cover_sentences_witness :
  let req := request three 50 20 in
  chunks (chunk 0 1 req no_globals).1 = render <$> layout req three
  /\ reconstruct (members <$> layout req three) = occurrences (usable three)
  /\ (reconstruct (members <$> layout req three)).*2 = usable three.
Proof.
  intros req.
  apply (chunks_cover_sentences (RT := runtime) 0 1 req no_globals three).
  - apply demo_globals.
  - apply demo_three_runs.
Defined.

Lemma chunk_text_joins_trimmed_sentences_witness :
  let req := request three 50 20 in
  chunks (chunk 0 1 req no_globals).1
    = (fun grp => join space (members grp).*2) <$> layout req three
  /\ (forall grp s,
        grp ∈ layout req three -> s ∈ members grp ->
        s.2 <> [] /\ exists raw, raw ∈ three /\ s.2 = strip raw)
  /\ (forall word_tok st raw,
        strip raw = [] -> loop_body word_tok req st raw = Ok st).
Proof.
  intros req.
  apply (chunk_text_joins_trimmed_sentences (RT := runtime) 0 1 req no_globals three).
  - apply demo_globals.
  - apply demo_three_runs.
Defined.

Lemma chunk_depends_on_request_only_witness :
  let req := request three 50 20 in
  let later := (chunk 0 1 req no_globals).2 in
  chunks (chunk 0 1 req no_globals).1 = chunks (chunk 5 9 req later).1
  /\ count (chunk 0 1 req no_globals).1 = count (chunk 5 9 req later).1
  /\ globals_ok (chunk 0 1 req no_globals).2.
Proof.
  intros req later.
  apply (chunk_depends_on_request_only (RT := runtime) 0 1 5 9 req no_globals later).
  - apply demo_globals.
  - split; vm_compute; reflexivity.
Defined.

Lemma chunks_nonempty_witness :
  let req := request three 50 20 in
  chunks (chunk 0 1 req no_globals).1 <> []
  /\ Forall (fun c => c <> []) (chunks (chunk 0 1 req no_globals).1).
Proof.
  intros req.
  apply (chunks_nonempty (RT := runtime) 0 1 req no_globals three).
  - apply demo_globals.
  - apply demo_three_runs.
  - vm_compute. discriminate.
Defined.

#[local] Existing Instance DemoToolkit.toolkit.

(** * The other properties on concrete requests *)

Lemma demo_no_space (l : list pystr) :
  forallb (forallb (fun c => negb (py_isspace c))) l = true ->
  Forall no_space l.
Proof.
  apply Forall_of_forallb. intros w Hw.
  apply (Forall_of_forallb _ (fun c => negb (py_isspace c))); [|done].
  intros c. apply negb_true_iff.
Qed.

Lemma demo_state : state_ok (RT := Demo.runtime) (TK := DemoToolkit.toolkit) no_state.
Proof. repeat split. Qed.


Lemma chunk_closed_only_when_full_witness :
  let req := request three 50 20 in
  chunks (chunk 0 1 req no_globals).1 = render <$> layout req three
  /\ forall (i : nat) (prev cur : Group Sentence),
       layout req three !! i = Some prev ->
       layout req three !! S i = Some cur ->
       exists f rest,
         fresh cur = f :: rest
         /\ max_tokens req < group_tokens prev + sentence_tc f.
Proof.
  intros req.
  apply (chunk_closed_only_when_full (RT := runtime) 0 1 req no_globals three).
  - apply demo_globals.
  - apply demo_three_runs.
Defined.

Lemma chunk_overlap_is_longest_tail_witness :
  let req := request three 50 20 in
  chunks (chunk 0 1 req no_globals).1 = render <$> layout req three
  /\ forall (i : nat) (prev cur : Group Sentence),
       layout req three !! i = Some prev ->
       layout req three !! S i = Some cur ->
       carried cur = members prev
       \/ exists before s,
            members prev = before ++ s :: carried cur
            /\ overlap req < total sentence_tc (carried cur) + sentence_tc s.
Proof.
  intros req.
  apply (chunk_overlap_is_longest_tail (RT := runtime) 0 1 req no_globals three).
  - apply demo_globals.
  - apply demo_three_runs.
  - simpl. lia.
Defined.

Lemma chunk_count_at_most_sentences_witness :
  let req := request three 50 20 in
  Forall (fun grp => fresh grp <> []) (layout req three)
  /\ count (chunk 0 1 req no_globals).1 <= len (usable three).
Proof.
  intros req.
  apply (chunk_count_at_most_sentences (RT := runtime) 0 1 req no_globals three).
  - apply demo_globals.
  - apply demo_three_runs.
Defined.

Lemma chunk_texts_are_trimmed_witness :
  let req := request three 50 20 in
  Forall (fun c => trimmed c /\ strip c = c) (chunks (chunk 0 1 req no_globals).1).
Proof.
  intros req.
  apply (chunk_texts_are_trimmed (RT := runtime) 0 1 req no_globals three).
  - apply demo_globals.
  - apply demo_three_runs.
Defined.

Lemma tokenize_segmented_splits_back_witness :
  let req := {| TokenizeRequest.text := py "ab  cd ";
                TokenizeRequest.engine := py "newmm" |} in
  let r := (tokenize (RT := runtime) 0 1 req no_state).1 in
  py_split (TokenizeResponse.segmented r) = TokenizeResponse.tokens r.
Proof.
  intros req r.
  apply (tokenize_segmented_splits_back (RT := runtime) 0 1 req no_state).
  apply demo_no_space. vm_compute. reflexivity.
Defined.


Lemma normalize_failure_returns_text_witness :
  let req := {| TextRequest.text := [97; 0; 98]%N |} in
  let r := (normalize (RT := runtime) (TK := DemoToolkit.toolkit)
              0 1 req no_state).1 in
  NormalizeResponse.normalized r = TextRequest.text req
  /\ NormalizeResponse.changed r = false.
Proof.
  intros req.
  apply (normalize_failure_returns_text (RT := runtime)
           (TK := DemoToolkit.toolkit) 0 1 req no_state).
  - exact I.
  - eexists. vm_compute. reflexivity.
Defined.

Lemma spellcheck_leaves_non_thai_text_witness :
  let req := {| TextRequest.text := py "abc" |} in
  let r := (spellcheck (RT := runtime) (TK := DemoToolkit.toolkit)
              0 1 req no_state).1 in
  SpellcheckResponse.corrected r = TextRequest.text req
  /\ SpellcheckResponse.changed r = false.
Proof.
  intros req.
  apply (spellcheck_leaves_non_thai_text (RT := runtime)
           (TK := DemoToolkit.toolkit) 0 1 req no_state).
  - apply demo_globals.
  - apply (Forall_of_forallb _ (fun c => negb (is_thai c)));
      [intros c; apply negb_true_iff|vm_compute; reflexivity].
  - intros f toks [= <-] Htok. vm_compute in Htok.
    injection Htok as <-. vm_compute. reflexivity.
Defined.

Lemma spellcheck_all_or_nothing_witness :
  let req := {| TextRequest.text := [3589; 3587]%N |} in
  let r := (spellcheck (RT := runtime) (TK := DemoToolkit.toolkit)
              0 1 req no_state).1 in
  SpellcheckResponse.corrected r = TextRequest.text req
  /\ SpellcheckResponse.changed r = false.
Proof.
  intros req.
  apply (spellcheck_all_or_nothing (RT := runtime) (TK := DemoToolkit.toolkit)
           0 1 req no_state word_tokenize DemoToolkit.correct
           [[3589]; [3587]]%N [3587]%N (PyExc "ValueError")).
  - apply demo_globals.
  - exact I.
  - reflexivity.
  - reflexivity.
  - vm_compute. reflexivity.
  - right. left.
  - vm_compute. reflexivity.
  - vm_compute. reflexivity.
Defined.

Lemma filter_stopwords_sound_witness :
  let req := {| StopwordsRequest.tokens := [py "the"; py "cat"; py "a"] |} in
  let r := (filter_stopwords (RT := runtime) (TK := DemoToolkit.toolkit)
              0 1 req no_state).1 in
  (forall t,
      t ∈ StopwordsResponse.filtered r
      <-> t ∈ StopwordsRequest.tokens req /\ t ∉ DemoToolkit.stop_words)
  /\ (forall t,
        t ∈ StopwordsResponse.removed r
        <-> t ∈ StopwordsRequest.tokens req /\ t ∈ DemoToolkit.stop_words).
Proof.
  intros req.
  apply (filter_stopwords_sound (RT := runtime) (TK := DemoToolkit.toolkit)
           0 1 req no_state DemoToolkit.stop_words).
  - exact I.
  - reflexivity.
Defined.

Lemma endpoints_keep_state_coherent_witness :
  let treq := {| TokenizeRequest.text := py "ab cd";
                 TokenizeRequest.engine := py "newmm" |} in
  let xreq := {| TextRequest.text := py "abc" |} in
  let sreq := {| StopwordsRequest.tokens := [py "the"; py "cat"] |} in
  let creq := request three 50 20 in
  state_ok (RT := runtime) (TK := DemoToolkit.toolkit) (tokenize 0 1 treq no_state).2
  /\ state_ok (normalize 0 1 xreq no_state).2
  /\ state_ok (spellcheck 0 1 xreq no_state).2
  /\ state_ok (filter_stopwords 0 1 sreq no_state).2
  /\ state_ok (chunk_endpoint 0 1 creq no_state).2.
Proof.
  intros treq xreq sreq creq.
  apply (endpoints_keep_state_coherent (RT := runtime)
           (TK := DemoToolkit.toolkit) 0 1 no_state treq xreq sreq creq).
  apply demo_state.
Defined.

(** The responses of the demo toolkit on small requests. *)
Example tokenize_demo :
  let r := (tokenize (RT := runtime) 0 1
              {| TokenizeRequest.text := py "ab c";
                 TokenizeRequest.engine := py "newmm" |} no_state).1 in
  TokenizeResponse.tokens r = [py "a"; py "b"; py "c"]
  /\ TokenizeResponse.segmented r = py "a b c".
Proof. split; vm_compute; reflexivity. Qed.

Example filter_stopwords_demo :
  let r := (filter_stopwords (RT := runtime) (TK := DemoToolkit.toolkit) 0 1
              {| StopwordsRequest.tokens := [py "the"; py "cat"; py "a"] |}
              no_state).1 in
  StopwordsResponse.filtered r = [py "cat"]
  /\ StopwordsResponse.removed r = [py "the"; py "a"].
Proof. split; vm_compute; reflexivity. Qed.
